(** * unlocked_scraper: the worker/queue scraper of [scraper.py]

    A shallow embedding of [src/scraper.py]: the two page parsers
    ([parse_stories], [parse_comments]), the secondary fetch
    ([fetch_story_with_comments]), the [worker] coroutine as a small-step
    machine interleaved over a shared queue and a shared result list, and
    the driver [main].

    External collaborators are parameters of the development:
    - [net] stands for [fetch] over aiohttp (a URL gives a body or raises);
    - [BeautifulSoup] stands for [BeautifulSoup(html, "html.parser")], the
      tree it builds being modelled by [node];
    - [repr_comments] stands for Python's [str()] of a list of dicts. *)

From Stdlib Require Import QArith DecimalString DecimalNat.
From stdpp Require Import gmap strings list fin_maps sorting.

Set Default Proof Using "Type".
Set Warnings "-register-all".
Local Open Scope nat_scope.

(** ** Python strings *)

(** A Python [str] is a sequence of Unicode code points. *)
Abbreviation pystr := (list N).

Definition py (s : string) : pystr :=
  Ascii.N_of_ascii <$> String.list_ascii_of_string s.

(** [str.isspace] on one code point, the set used by [str.strip()] and by
    the regular expression [\S] on [str] patterns. *)
Definition isspace (c : N) : bool :=
  ((9 <=? c) && (c <=? 13) || (28 <=? c) && (c <=? 32)
   || (c =? 133) || (c =? 160) || (c =? 5760)
   || (8192 <=? c) && (c <=? 8202)
   || (c =? 8232) || (c =? 8233) || (c =? 8239) || (c =? 8287)
   || (c =? 12288))%N.

Fixpoint lstrip (s : pystr) : pystr :=
  match s with
  | c :: s' => if isspace c then lstrip s' else s
  | [] => []
  end.

Definition rstrip (s : pystr) : pystr := reverse (lstrip (reverse s)).

(** [s.strip()] *)
Definition strip (s : pystr) : pystr := rstrip (lstrip s).

(** [sep.join(parts)] *)
Fixpoint join (sep : pystr) (parts : list pystr) : pystr :=
  match parts with
  | [] => []
  | [p] => p
  | p :: rest => p ++ sep ++ join sep rest
  end.

(** [re.findall(r"\S+", s)]: the maximal runs of non-whitespace. *)
Fixpoint split_ws_aux (cur : pystr) (s : pystr) : list pystr :=
  match s with
  | [] => match cur with [] => [] | _ => [reverse cur] end
  | c :: s' =>
      if isspace c
      then match cur with
           | [] => split_ws_aux [] s'
           | _ => reverse cur :: split_ws_aux [] s'
           end
      else split_ws_aux (c :: cur) s'
  end.

Definition split_ws (s : pystr) : list pystr := split_ws_aux [] s.

(** A string is stripped when it neither starts nor ends with whitespace. *)
Definition stripped (s : pystr) : Prop :=
  (∀ c, head s = Some c → isspace c = false) ∧
  (∀ c, last s = Some c → isspace c = false).

(** ** The tree built by BeautifulSoup *)

Inductive node :=
| NavigableString (s : pystr)
| Tag (name : pystr) (attrs : gmap pystr pystr) (contents : list node).

Definition tag_attrs (n : node) : gmap pystr pystr :=
  match n with
  | Tag _ a _ => a
  | NavigableString _ => ∅
  end.

Definition tag_name (n : node) : option pystr :=
  match n with
  | Tag nm _ _ => Some nm
  | NavigableString _ => None
  end.

Definition is_tag (n : node) : bool :=
  match n with Tag _ _ _ => true | NavigableString _ => false end.

(** The tree builder splits the [class] attribute on whitespace; a CSS
    class selector asks for membership in that list. *)
Definition has_class (cls : pystr) (n : node) : bool :=
  match tag_attrs n !! py "class" with
  | Some v => bool_decide (cls ∈ split_ws v)
  | None => false
  end.

Definition has_name (nm : pystr) (n : node) : bool :=
  bool_decide (tag_name n = Some nm).

(** Every node below [n] in document order, paired with its parent. *)
Fixpoint descendants (n : node) : list (node * node) :=
  match n with
  | NavigableString _ => []
  | Tag _ _ cs =>
      (fix go (l : list node) : list (node * node) :=
         match l with
         | [] => []
         | c :: l' => (n, c) :: descendants c ++ go l'
         end) cs
  end.

(** [tag.select(sel)] for a selector given as a test on (parent, element). *)
Definition select (sel : node → node → bool) (n : node) : list node :=
  snd <$> filter (λ pc, is_tag pc.2 && sel pc.1 pc.2 = true) (descendants n).

(** [tag.select_one(sel)] *)
Definition select_one (sel : node → node → bool) (n : node) : option node :=
  head (select sel n).

(** The selectors of [scraper.py]. *)
Definition sel_athing (_ e : node) : bool := has_class (py "athing") e.
Definition sel_titleline_a (p e : node) : bool :=
  has_class (py "titleline") p && has_name (py "a") e.
Definition sel_tr_comtr (_ e : node) : bool :=
  has_name (py "tr") e && has_class (py "comtr") e.
Definition sel_hnuser (_ e : node) : bool := has_class (py "hnuser") e.
Definition sel_commtext (_ e : node) : bool := has_class (py "commtext") e.

(** All strings below a node, in document order. *)
Fixpoint all_strings (n : node) : list pystr :=
  match n with
  | NavigableString s => [s]
  | Tag _ _ cs =>
      (fix go (l : list node) : list pystr :=
         match l with
         | [] => []
         | c :: l' => all_strings c ++ go l'
         end) cs
  end.

(** [tag.text] *)
Definition text (n : node) : pystr := concat (all_strings n).

(** [tag.get_text(separator=sep, strip=True)] *)
Definition get_text_strip (sep : pystr) (n : node) : pystr :=
  join sep (filter (λ s, s ≠ []) (strip <$> all_strings n)).

(** ** Exceptions and dict values *)

Inductive exn :=
| ClientError
| TimeoutError
| KeyError (key : pystr)
| ZeroDivisionError
| ExceptionGroup (errors : list exn).

Inductive result (A : Type) :=
| Ok (a : A)
| Raise (e : exn).
Arguments Ok {A} a.
Arguments Raise {A} e.

(** A comment is the dict [{"user": user, "text": text}]. *)
Inductive value :=
| VStr (s : pystr)
| VComments (c : list (gmap pystr pystr)).

(** A story is a Python dict. *)
Abbreviation story := (gmap pystr value).

Definition truthy (o : option pystr) : bool :=
  match o with
  | Some (_ :: _) => true
  | _ => false
  end.

(** ** The parsers *)

Section Parsers.
(** [BeautifulSoup(html, "html.parser")] *)
Variable BeautifulSoup : pystr → node.

(** The dict literal [{"id": story_id, "title": title, "link": link}]. *)
Definition story_dict (story_id title link : pystr) : story :=
  <[py "link" := VStr link]>
    (<[py "title" := VStr title]> (<[py "id" := VStr story_id]> ∅)).

(** The body of the [for item in soup.select(".athing")] loop, with the
    list [stories] built so far. *)
Fixpoint parse_stories_loop (items : list node) (stories : list story)
    : result (list story) :=
  match items with
  | [] => Ok stories
  | item :: rest =>
      let title_tag := select_one sel_titleline_a item in
      let story_id := tag_attrs item !! py "id" in
      match title_tag, story_id with
      | Some t, Some (c :: i) =>
          let title := strip (text t) in
          match tag_attrs t !! py "href" with
          | None => Raise (KeyError (py "href"))
          | Some href =>
              let link := strip href in
              parse_stories_loop rest
                (stories ++ [story_dict (c :: i) title link])
          end
      | _, _ => parse_stories_loop rest stories
      end
  end.

Definition parse_stories (html : pystr) : result (list story) :=
  let soup := BeautifulSoup html in
  parse_stories_loop (select sel_athing soup) [].

(** The dict literal [{"user": user, "text": text}]. *)
Definition comment_dict (user txt : pystr) : gmap pystr pystr :=
  <[py "text" := txt]> (<[py "user" := user]> ∅).

Fixpoint parse_comments_loop (rows : list node)
    (comments : list (gmap pystr pystr)) : list (gmap pystr pystr) :=
  match rows with
  | [] => comments
  | row :: rest =>
      let user_tag := select_one sel_hnuser row in
      let comment_tag := select_one sel_commtext row in
      match user_tag, comment_tag with
      | Some u, Some c =>
          let user := strip (text u) in
          let txt := get_text_strip (py " ") c in
          parse_comments_loop rest (comments ++ [comment_dict user txt])
      | _, _ => parse_comments_loop rest comments
      end
  end.

Definition parse_comments (html : pystr) : list (gmap pystr pystr) :=
  let soup := BeautifulSoup html in
  parse_comments_loop (select sel_tr_comtr soup) [].
End Parsers.

(** An item of the page yields a record exactly when it has a title anchor
    and a non-empty [id] attribute. *)
Definition story_item (item : node) : bool :=
  bool_decide (is_Some (select_one sel_titleline_a item))
  && truthy (tag_attrs item !! py "id").

(** The record built from an item that passes the test. *)
Definition record_of (item : node) (s : story) : Prop :=
  ∃ t i href,
    select_one sel_titleline_a item = Some t ∧
    tag_attrs item !! py "id" = Some i ∧ i ≠ [] ∧
    tag_attrs t !! py "href" = Some href ∧
    s = story_dict i (strip (text t)) (strip href).

(** A record with exactly the keys [id], [title] and [link], a non-empty
    [id], and stripped [title] and [link]. *)
Definition complete_record (s : story) : Prop :=
  dom s = {[py "id"; py "title"; py "link"]} ∧
  ∃ i t l,
    s !! py "id" = Some (VStr i) ∧ i ≠ [] ∧
    s !! py "title" = Some (VStr t) ∧ stripped t ∧
    s !! py "link" = Some (VStr l) ∧ stripped l.

(** ** Worker states, events and the shared state *)

(** One task of the [TaskGroup]. *)
Inductive task_state :=
| Pending
| Done
| Failed (e : exn)
| Cancelled.

(** How a coroutine or [main] ends. *)
Inductive outcome :=
| Returned
| Raised (e : exn).

(** Where a [worker] coroutine stands:
    - [Claiming]: at [queue.get(block=False)], inside a fresh [TaskGroup];
    - [PageFetching page]: awaiting [fetch(session, page)];
    - [Joining stories tasks errors]: at the exit of [async with], one task
      per story, [errors] being the exceptions the group has collected;
    - [Publishing stories]: at [all_stories.extend(stories)];
    - [Terminated o]: the coroutine has returned or raised. *)
Inductive wstate :=
| Claiming
| PageFetching (page : pystr)
| Joining (stories : list story) (tasks : list task_state) (errors : list exn)
| Publishing (stories : list story)
| Terminated (o : outcome).

Inductive event :=
| EvTake (w : nat) (page : pystr)
| EvEmpty (w : nat)
| EvFetchFailed (w : nat) (page : pystr) (e : exn)
| EvParseRaised (w : nat) (page : pystr) (e : exn)
| EvNoStories (w : nat) (page : pystr)
| EvSpawn (w : nat) (page : pystr) (stories : list story)
| EvTaskDone (w : nat) (i : nat)
| EvTaskFailed (w : nat) (i : nat) (e : exn)
| EvAbort (w : nat) (cancelled : nat)
| EvJoined (w : nat)
| EvGroupRaised (w : nat) (errors : list exn)
| EvPublish (w : nat) (stories : list story).

(** The objects shared by all workers, and the workers themselves. *)
Record gstate := GState {
  queue : list pystr;
  all_stories : list story;
  workers : list wstate
}.

(** What the scheduler may let a worker do next: run the coroutine itself,
    let the [i]-th task of its group finish, or let a group that has
    collected an error cancel its remaining tasks. The group cancels from
    the done-callback of the failed task, so a task that ends before that
    callback runs still ends in its own way. *)
Inductive action :=
| Advance
| Complete (i : nat)
| Abort.

Abbreviation choice := (nat * action)%type.

Definition is_pending (t : task_state) : bool :=
  match t with Pending => true | _ => false end.

Definition pending (tasks : list task_state) : nat :=
  length (filter (λ t, is_pending t = true) tasks).

Definition cancel (t : task_state) : task_state :=
  match t with Pending => Cancelled | _ => t end.

Definition is_terminated (ws : wstate) : bool :=
  match ws with Terminated _ => true | _ => false end.

Definition all_terminated (st : gstate) : bool :=
  forallb is_terminated (workers st).

(** ** The coroutines *)

Definition BASE_URL_format (page : nat) : pystr :=
  py "https://news.ycombinator.com/news?p="
  ++ py (NilEmpty.string_of_uint (Nat.to_uint page)).

Section Machine.
(** [fetch] over the network: the body of the response, or the exception
    of the transport (a timeout included). *)
Variable net : pystr → result pystr.
Variable BeautifulSoup : pystr → node.
(** [str()] of a list of dicts, for [ITEM_URL.format]. *)
Variable repr_comments : list (gmap pystr pystr) → pystr.

Definition fetch (url : pystr) : result pystr := net url.

Definition py_str (v : value) : pystr :=
  match v with
  | VStr s => s
  | VComments c => repr_comments c
  end.

Definition ITEM_URL_format (v : value) : pystr :=
  py "https://news.ycombinator.com/item?id=" ++ py_str v.

(** The dict [story] is updated in place and returned; the result here is
    the new content of that dict. *)
Definition fetch_story_with_comments (s : story) : result story :=
  match s !! py "id" with
  | None => Raise (KeyError (py "id"))
  | Some v =>
      match fetch (ITEM_URL_format v) with
      | Raise e => Raise e
      | Ok comment_html =>
          Ok (<[py "comments" :=
                  VComments (parse_comments BeautifulSoup comment_html)]> s)
      end
  end.

(** One step of worker [w] on the queue [q]: the event, the queue left,
    the stories appended to [all_stories], and the worker's new state. *)
Definition worker_step (w : nat) (a : action) (q : list pystr) (ws : wstate)
    : option (event * list pystr * list story * wstate) :=
  match ws, a with
  | Claiming, Advance =>
      match q with
      | [] => Some (EvEmpty w, q, [], Terminated Returned)
      | page :: q' => Some (EvTake w page, q', [], PageFetching page)
      end
  | PageFetching page, Advance =>
      match fetch page with
      | Raise e =>
          Some (EvFetchFailed w page e, q, [],
                Terminated (Raised (ExceptionGroup [e])))
      | Ok html =>
          match parse_stories BeautifulSoup html with
          | Raise e =>
              Some (EvParseRaised w page e, q, [],
                    Terminated (Raised (ExceptionGroup [e])))
          | Ok [] => Some (EvNoStories w page, q, [], Terminated Returned)
          | Ok stories =>
              Some (EvSpawn w page stories, q, [],
                    Joining stories ((λ _, Pending) <$> stories) [])
          end
      end
  | Joining stories tasks errors, Complete i =>
      match tasks !! i, stories !! i with
      | Some Pending, Some s =>
          match fetch_story_with_comments s with
          | Ok s' =>
              Some (EvTaskDone w i, q, [],
                    Joining (<[i:=s']> stories) (<[i:=Done]> tasks) errors)
          | Raise e =>
              Some (EvTaskFailed w i e, q, [],
                    Joining stories (<[i:=Failed e]> tasks) (errors ++ [e]))
          end
      | _, _ => None
      end
  | Joining stories tasks errors, Abort =>
      match errors, pending tasks with
      | _ :: _, S _ =>
          Some (EvAbort w (pending tasks), q, [],
                Joining stories (cancel <$> tasks) errors)
      | _, _ => None
      end
  | Joining stories tasks errors, Advance =>
      match pending tasks, errors with
      | 0, [] => Some (EvJoined w, q, [], Publishing stories)
      | 0, _ :: _ =>
          Some (EvGroupRaised w errors, q, [],
                Terminated (Raised (ExceptionGroup errors)))
      | S _, _ => None
      end
  | Publishing stories, Advance =>
      Some (EvPublish w stories, q, stories, Claiming)
  | _, _ => None
  end.

(** One atomic step of the whole pool. [Queue.get] and [list.extend] are
    each taken as one step. *)
Definition step (c : choice) (st : gstate) : option (event * gstate) :=
  ws ← workers st !! c.1;
  '(ev, q, app, ws') ← worker_step c.1 c.2 (queue st) ws;
  Some (ev, GState q (all_stories st ++ app) (<[c.1 := ws']> (workers st))).

(** A run under a schedule, with the events so far. *)
Fixpoint run (sched : list choice) (cfg : list event * gstate)
    : option (list event * gstate) :=
  match sched with
  | [] => Some cfg
  | c :: rest =>
      match step c cfg.2 with
      | Some (ev, st') => run rest (cfg.1 ++ [ev], st')
      | None => None
      end
  end.

(** A scheduler that always serves the first worker that can move. *)
Definition next_action (ws : wstate) : option action :=
  match ws with
  | Terminated _ => None
  | Joining _ tasks _ =>
      match list_find (λ t, is_pending t = true) tasks with
      | Some (i, _) => Some (Complete i)
      | None => Some Advance
      end
  | _ => Some Advance
  end.

Fixpoint first_choice (w : nat) (l : list wstate) : option choice :=
  match l with
  | [] => None
  | ws :: l' =>
      match next_action ws with
      | Some a => Some (w, a)
      | None => first_choice (S w) l'
      end
  end.

(** The run under that scheduler, until no worker can move. *)
Fixpoint drain (fuel : nat) (cfg : list event * gstate)
    : option (list event * gstate) :=
  match first_choice 0 (workers cfg.2) with
  | None => Some cfg
  | Some c =>
      match fuel with
      | 0 => None
      | S fuel' =>
          match step c cfg.2 with
          | Some (ev, st') => drain fuel' (cfg.1 ++ [ev], st')
          | None => None
          end
      end
  end.

(** The number of tasks a page will spawn. *)
Definition page_tasks (page : pystr) : nat :=
  match fetch page with
  | Ok html =>
      match parse_stories BeautifulSoup html with
      | Ok stories => length stories
      | Raise _ => 0
      end
  | Raise _ => 0
  end.

(** Steps a worker can still take before it claims again or stops. *)
Definition wmeasure (ws : wstate) : nat :=
  match ws with
  | Claiming => 1
  | PageFetching page => 4 + page_tasks page
  | Joining _ tasks _ => 3 + pending tasks
  | Publishing _ => 2
  | Terminated _ => 0
  end.

Definition measure (st : gstate) : nat :=
  sum_list ((λ page, 4 + page_tasks page) <$> queue st)
  + sum_list (wmeasure <$> workers st).
End Machine.

(** ** The pool driver *)

(** [workers] coroutines sharing one queue seeded with [urls] and one
    empty result list. *)
Definition pool_init (n : nat) (urls : list pystr) : gstate :=
  GState urls [] (replicate n Claiming).

Definition main_pages : list pystr := BASE_URL_format <$> seq 1 100.

Definition main_workers (multithreaded : bool) : nat :=
  if multithreaded then 8 else 1.

Definition main_init (multithreaded : bool) : gstate :=
  pool_init (main_workers multithreaded) main_pages.

(** What [main] prints; a float is read as the rational it stands for and
    the formatting of numbers is left out. *)
Inductive line :=
| LUsingMultithreading
| LUsingSingleThread
| LRule
| LTotal (n : nat)
| LElapsed (t : Q)
| LSpeed (v : Q).

(** The exception [asyncio.run(worker(...))] lets through in the
    single-threaded branch; a future of the executor keeps it. *)
Definition escaped (multithreaded : bool) (st : gstate) : option exn :=
  if multithreaded then None
  else match workers st !! 0 with
       | Some (Terminated (Raised e)) => Some e
       | _ => None
       end.

(** [main] from the point where every worker has ended, [elapsed] being
    [end_time - start_time]. *)
Definition main_finish (multithreaded : bool) (elapsed : Q) (st : gstate)
    : list line * outcome :=
  let banner :=
    if multithreaded then LUsingMultithreading else LUsingSingleThread in
  match escaped multithreaded st with
  | Some e => ([banner], Raised e)
  | None =>
      let n := length (all_stories st) in
      if Qeq_bool elapsed 0
      then ([banner; LRule; LTotal n; LElapsed elapsed],
            Raised ZeroDivisionError)
      else ([banner; LRule; LTotal n; LElapsed elapsed;
             LSpeed (inject_Z (Z.of_nat n) / elapsed); LRule], Returned)
  end.

Section Main.
Variable net : pystr → result pystr.
Variable BeautifulSoup : pystr → node.
Variable repr_comments : list (gmap pystr pystr) → pystr.

(** A run of the pool to its end under a schedule. *)
Definition pool (n : nat) (urls : list pystr) (sched : list choice)
    : option (list event * gstate) :=
  match run net BeautifulSoup repr_comments sched ([], pool_init n urls) with
  | Some (tr, st) => if all_terminated st then Some (tr, st) else None
  | None => None
  end.

Definition main (multithreaded : bool) (sched : list choice) (elapsed : Q)
    : option (list event * (list line * outcome)) :=
  match pool (main_workers multithreaded) main_pages sched with
  | Some (tr, st) => Some (tr, main_finish multithreaded elapsed st)
  | None => None
  end.
End Main.

(** ** Concrete pages *)

Definition elem (name : string) (attrs : list (string * string))
    (contents : list node) : node :=
  Tag (py name) (list_to_map ((λ kv, (py kv.1, py kv.2)) <$> attrs)) contents.

Definition document (contents : list node) : node :=
  Tag (py "[document]") ∅ contents.

(** A listing page with the two stories A (id 1) and B (id 2). *)
Definition page_AB_html : pystr :=
  py ("<tr class='athing' id='1'><td><span class='titleline'>"
      ++ "<a href='http://a.example/'>A</a></span></td></tr>"
      ++ "<tr class='athing' id='2'><td><span class='titleline'>"
      ++ "<a href='http://b.example/'>B</a></span></td></tr>").

Definition page_AB_soup : node :=
  document
    [elem "tr" [("class", "athing"); ("id", "1")]
       [elem "td" []
          [elem "span" [("class", "titleline")]
             [elem "a" [("href", "http://a.example/")]
                [NavigableString (py "A")]]]];
     elem "tr" [("class", "athing"); ("id", "2")]
       [elem "td" []
          [elem "span" [("class", "titleline")]
             [elem "a" [("href", "http://b.example/")]
                [NavigableString (py "B")]]]]].

(** A listing page without stories. *)
Definition page_empty_html : pystr := py "<html><body></body></html>".

Definition page_empty_soup : node :=
  document [elem "html" [] [elem "body" [] []]].

(** A comment page with one comment. *)
Definition item_html : pystr :=
  py ("<tr class='athing comtr'><td><a class='hnuser'>ann</a>"
      ++ "<div class='commtext'> nice <i>one</i></div></td></tr>").

Definition item_soup : node :=
  document
    [elem "tr" [("class", "athing comtr")]
       [elem "td" []
          [elem "a" [("class", "hnuser")] [NavigableString (py "ann")];
           elem "div" [("class", "commtext")]
             [NavigableString (py " nice ");
              elem "i" [] [NavigableString (py "one")]]]]].

(** A listing page with a story whose title and link carry surrounding
    whitespace, an item without an [id], and an item without a title
    anchor. *)
Definition page_odd_html : pystr :=
  py ("<tr class='athing' id='7'><span class='titleline'>"
      ++ "<a href='  /x  '> T </a></span></tr>"
      ++ "<tr class='athing'><span class='titleline'>"
      ++ "<a href='/y'>no id</a></span></tr>"
      ++ "<tr class='athing' id='9'><span class='title'>no anchor</span></tr>").

Definition page_odd_soup : node :=
  document
    [elem "tr" [("class", "athing"); ("id", "7")]
       [elem "span" [("class", "titleline")]
          [elem "a" [("href", "  /x  ")] [NavigableString (py " T ")]]];
     elem "tr" [("class", "athing")]
       [elem "span" [("class", "titleline")]
          [elem "a" [("href", "/y")] [NavigableString (py "no id")]]];
     elem "tr" [("class", "athing"); ("id", "9")]
       [elem "span" [("class", "title")] [NavigableString (py "no anchor")]]].

(** A listing page whose title anchor has no [href]. *)
Definition page_nohref_html : pystr :=
  py ("<tr class='athing' id='7'><span class='titleline'>"
      ++ "<a name='x'>T</a></span></tr>").

Definition page_nohref_soup : node :=
  document
    [elem "tr" [("class", "athing"); ("id", "7")]
       [elem "span" [("class", "titleline")]
          [elem "a" [("name", "x")] [NavigableString (py "T")]]]].

Definition soup_of (html : pystr) : node :=
  if decide (html = page_AB_html) then page_AB_soup
  else if decide (html = item_html) then item_soup
  else if decide (html = page_odd_html) then page_odd_soup
  else if decide (html = page_nohref_html) then page_nohref_soup
  else page_empty_soup.

Definition repr_none (c : list (gmap pystr pystr)) : pystr := py "[...]".

Definition item_url (i : string) : pystr :=
  py "https://news.ycombinator.com/item?id=" ++ py i.

(** Page 1 lists A and B, every other page is empty, comment pages load. *)
Definition net_AB (url : pystr) : result pystr :=
  if decide (url = BASE_URL_format 1) then Ok page_AB_html
  else if decide (url = item_url "1") then Ok item_html
  else if decide (url = item_url "2") then Ok item_html
  else Ok page_empty_html.

(** As [net_AB], but the comment page of B times out. *)
Definition net_AB_timeout (url : pystr) : result pystr :=
  if decide (url = item_url "2") then Raise TimeoutError else net_AB url.

(** Page 1 is empty, page 2 lists A and B. *)
Definition net_empty_first (url : pystr) : result pystr :=
  if decide (url = BASE_URL_format 1) then Ok page_empty_html
  else if decide (url = BASE_URL_format 2) then Ok page_AB_html
  else net_AB url.

(** No page can be fetched. *)
Definition net_down (url : pystr) : result pystr := Raise ClientError.

Definition story_A : story :=
  story_dict (py "1") (py "A") (py "http://a.example/").
Definition story_B : story :=
  story_dict (py "2") (py "B") (py "http://b.example/").

Definition item_comments : value :=
  VComments [comment_dict (py "ann") (py "nice one")].

Definition with_comments (s : story) : story :=
  <[py "comments" := item_comments]> s.

(** ** Observations on a trace *)

Definition ev_worker (ev : event) : nat :=
  match ev with
  | EvTake w _ | EvEmpty w | EvFetchFailed w _ _ | EvParseRaised w _ _
  | EvNoStories w _ | EvSpawn w _ _ | EvTaskDone w _ | EvTaskFailed w _ _
  | EvAbort w _ | EvJoined w | EvGroupRaised w _ | EvPublish w _ => w
  end.

(** The page URLs handed out by [queue.get], in order. *)
Definition taken (tr : list event) : list pystr :=
  omap (λ ev, match ev with EvTake _ page => Some page | _ => None end) tr.

(** The records appended by [all_stories.extend], in order. *)
Definition published (tr : list event) : list story :=
  concat (omap (λ ev, match ev with
                      | EvPublish _ stories => Some stories
                      | _ => None
                      end) tr).

(** The tasks of worker [w] that were created and have not ended yet. *)
Definition outstanding_step (w : nat) (k : nat) (ev : event) : nat :=
  if bool_decide (ev_worker ev = w) then
    match ev with
    | EvSpawn _ _ stories => length stories
    | EvTaskDone _ _ | EvTaskFailed _ _ _ => pred k
    | EvAbort _ cancelled => k - cancelled
    | _ => k
    end
  else k.

Definition outstanding (w : nat) (tr : list event) : nat :=
  foldl (outstanding_step w) 0 tr.

(** The events at which worker [w] touches the shared objects. *)
Definition claims_or_publishes (w : nat) (ev : event) : Prop :=
  match ev with
  | EvTake w' _ | EvPublish w' _ => w' = w
  | _ => False
  end.

(** Fetches that failed and parsers that raised during a run. *)
Definition is_failure (ev : event) : bool :=
  match ev with
  | EvFetchFailed _ _ _ | EvParseRaised _ _ _ | EvTaskFailed _ _ _ => true
  | _ => false
  end.

Definition failures (tr : list event) : nat :=
  length (filter (λ ev, is_failure ev = true) tr).

(** The error total in the words of the specification: the primary fetch
    failures and empty pages that ended a worker, plus the secondary
    failures. *)
Definition spec_error (ev : event) : bool :=
  match ev with
  | EvFetchFailed _ _ _ | EvNoStories _ _ | EvTaskFailed _ _ _ => true
  | _ => false
  end.

Definition spec_total_errors (tr : list event) : nat :=
  length (filter (λ ev, spec_error ev = true) tr).

(** A worker whose task group holds the exception [e]: it is still
    joining, or it has raised the group. *)
Definition doomed (e : exn) (ws : wstate) : Prop :=
  match ws with
  | Joining _ _ errors => e ∈ errors
  | Terminated (Raised (ExceptionGroup errors)) => e ∈ errors
  | _ => False
  end.

(** A [Joining] state has one task per story. *)
Definition wf_wstate (ws : wstate) : Prop :=
  match ws with
  | Joining stories tasks _ => length tasks = length stories
  | _ => True
  end.

(** Pending tasks of a worker. *)
Definition wpending (ws : wstate) : nat :=
  match ws with
  | Joining _ tasks _ => pending tasks
  | _ => 0
  end.

(** ** Concrete runs *)

(** A listing page with the single story A, and one with a hundred rows. *)
Definition row_A_html : pystr :=
  py ("<tr class='athing' id='1'><td><span class='titleline'>"
      ++ "<a href='http://a.example/'>A</a></span></td></tr>").

Definition row_A : node :=
  elem "tr" [("class", "athing"); ("id", "1")]
    [elem "td" []
       [elem "span" [("class", "titleline")]
          [elem "a" [("href", "http://a.example/")]
             [NavigableString (py "A")]]]].

Definition page_100_html : pystr := concat (replicate 100 row_A_html).

Definition soup_rows (html : pystr) : node :=
  if decide (html = row_A_html) then document [row_A]
  else if decide (html = page_100_html) then document (replicate 100 row_A)
  else soup_of html.

(** Every listing page shows story A and every comment page loads. *)
Definition net_full (url : pystr) : result pystr :=
  if decide (url = item_url "1") then Ok item_html else Ok row_A_html.

(** Page 1 shows a hundred stories; no other listing page can be fetched. *)
Definition net_big (url : pystr) : result pystr :=
  if decide (url = BASE_URL_format 1) then Ok page_100_html
  else if decide (url = item_url "1") then Ok item_html
  else Raise ClientError.

(** Worker 0 scrapes all hundred pages, then every worker finds the queue
    empty. *)
Definition sched_full : list choice :=
  concat (replicate 100
            [(0, Advance); (0, Advance); (0, Complete 0);
             (0, Advance); (0, Advance)])
  ++ ((λ w, (w, Advance)) <$> seq 0 8).

(** Worker 0 scrapes page 1 and fails on page 2; the others fail on their
    first page. *)
Definition sched_big : list choice :=
  [(0, Advance); (0, Advance)]
  ++ ((λ i, (0, Complete i)) <$> seq 0 100)
  ++ [(0, Advance); (0, Advance); (0, Advance); (0, Advance)]
  ++ concat ((λ w, [(w, Advance); (w, Advance)]) <$> seq 1 7).

(** One worker: claim, fetch, the two tasks, join, publish, claim, fetch. *)
Definition sched_AB : list choice :=
  [(0, Advance); (0, Advance); (0, Complete 0); (0, Complete 1);
   (0, Advance); (0, Advance); (0, Advance); (0, Advance)].

(** One worker: claim, fetch, the task of B fails, the group cancels the
    task of A and raises. *)
Definition sched_B_fails : list choice :=
  [(0, Advance); (0, Advance); (0, Complete 1); (0, Abort); (0, Advance)].

Definition two_pages : list pystr := [BASE_URL_format 1; BASE_URL_format 2].

(** The events of the run of one worker over the two pages [P1] (stories
    [A] and [B]) and [P2] (no story); the two tasks may end in either
    order. *)
Definition scenario_trace (P1 P2 : pystr) (A B A' B' : story)
    (A_first : bool) : list event :=
  [EvTake 0 P1; EvSpawn 0 P1 [A; B]]
  ++ (if A_first then [EvTaskDone 0 0; EvTaskDone 0 1]
      else [EvTaskDone 0 1; EvTaskDone 0 0])
  ++ [EvJoined 0; EvPublish 0 [A'; B']; EvTake 0 P2; EvNoStories 0 P2].

Definition trace_B_fails : list event :=
  [EvTake 0 (BASE_URL_format 1);
   EvSpawn 0 (BASE_URL_format 1) [story_A; story_B];
   EvTaskFailed 0 1 TimeoutError;
   EvAbort 0 1;
   EvGroupRaised 0 [TimeoutError]].

Definition state_B_fails : gstate :=
  GState [BASE_URL_format 2] []
    [Terminated (Raised (ExceptionGroup [TimeoutError]))].

(** The stories of the page a worker is at: those of its last spawn. *)
Definition spawned_step (w : nat) (cur : list story) (ev : event)
    : list story :=
  match ev with
  | EvSpawn w' _ stories => if bool_decide (w' = w) then stories else cur
  | _ => cur
  end.

Definition spawned (w : nat) (tr : list event) : list story :=
  foldl (spawned_step w) [] tr.

(** [s] is the parsed record [s0] with a list of comments attached. *)
Definition enriched (s0 s : story) : Prop :=
  ∃ c, s = <[py "comments" := VComments c]> s0.

(** The state of one task against the record it was spawned for. *)
Definition task_ok (errors : list exn) (s0 s : story) (t : task_state)
    : Prop :=
  match t with
  | Pending => s = s0
  | Done => enriched s0 s
  | Failed _ | Cancelled => errors ≠ []
  end.

(** The state of a worker against the records of its last spawn. *)
Definition page_ok (sp : list story) (ws : wstate) : Prop :=
  match ws with
  | Joining stories tasks errors =>
      length stories = length sp ∧ length tasks = length sp ∧
      ∀ i s0 s t,
        sp !! i = Some s0 → stories !! i = Some s → tasks !! i = Some t →
        task_ok errors s0 s t
  | Publishing stories => Forall2 enriched sp stories
  | _ => True
  end.

(** ** More on the parsers *)

(** A row of the comment page yields a comment exactly when it has both a
    user tag and a comment tag. *)
Definition comment_row (row : node) : bool :=
  bool_decide (is_Some (select_one sel_hnuser row))
  && bool_decide (is_Some (select_one sel_commtext row)).

(** The comment built from a row that passes the test. *)
Definition comment_of (row : node) (c : gmap pystr pystr) : Prop :=
  ∃ u t,
    select_one sel_hnuser row = Some u ∧
    select_one sel_commtext row = Some t ∧
    c = comment_dict (strip (text u)) (get_text_strip (py " ") t).

(** A comment with exactly the keys [user] and [text], both stripped. *)
Definition complete_comment (c : gmap pystr pystr) : Prop :=
  dom c = {[py "user"; py "text"]} ∧
  ∃ u t,
    c !! py "user" = Some u ∧ stripped u ∧
    c !! py "text" = Some t ∧ stripped t.

(** An item that passes the test of [parse_stories] but whose title anchor
    has no [href]. *)
Definition anchor_without_href (item : node) : Prop :=
  story_item item = true ∧
  ∃ t, select_one sel_titleline_a item = Some t ∧
       tag_attrs t !! py "href" = None.

(** The keys of a story once its comments are attached. *)
Definition story_keys : gset pystr :=
  {[py "id"; py "title"; py "link"; py "comments"]}.


(** ** The worker loop read page by page *)

Section Scrape.
Variable net : pystr → result pystr.
Variable BeautifulSoup : pystr → node.
Variable repr_comments : list (gmap pystr pystr) → pystr.

(** The story with its comments, when its comment page loads. *)
Definition enrich (s : story) : option story :=
  match fetch_story_with_comments net BeautifulSoup repr_comments s with
  | Ok s' => Some s'
  | Raise _ => None
  end.

(** What a page adds to [all_stories] when nothing fails: its stories, in
    the order of the parser, each with its comments. *)
Definition scrape_page (page : pystr) : option (list story) :=
  match fetch net page with
  | Ok html =>
      match parse_stories BeautifulSoup html with
      | Ok stories => mapM enrich stories
      | Raise _ => None
      end
  | Raise _ => None
  end.

(** The loop of [worker] run alone over the queue, one page after the
    other: it stops at the first page that fails or has no story. *)
Fixpoint seq_scrape (urls : list pystr) : list story :=
  match urls with
  | [] => []
  | page :: rest =>
      match scrape_page page with
      | Some (s :: stories) => (s :: stories) ++ seq_scrape rest
      | _ => []
      end
  end.

(** What one worker will still add to [all_stories], [cur] being the page
    it took last. *)
Definition remaining (cur : option pystr) (q : list pystr) (ws : wstate)
    : list story :=
  match ws with
  | Claiming => seq_scrape q
  | PageFetching page => seq_scrape (page :: q)
  | Joining _ _ _ =>
      match cur with
      | Some page => seq_scrape (page :: q)
      | None => []
      end
  | Publishing stories => stories ++ seq_scrape q
  | Terminated _ => []
  end.

(** A page that loads, has stories, and whose comment pages all load. *)
Definition good_page (page : pystr) : Prop :=
  ∃ stories, scrape_page page = Some stories ∧ stories ≠ [].

(** The state of one task against the story it was spawned for. *)
Definition task_exact (s0 s : story) (t : task_state) : Prop :=
  match t with
  | Pending => s = s0
  | Done =>
      fetch_story_with_comments net BeautifulSoup repr_comments s0 = Ok s
  | Failed e =>
      fetch_story_with_comments net BeautifulSoup repr_comments s0 = Raise e
  | Cancelled => True
  end.

(** The state of a worker against the page it took last ([cur]) and the
    stories it spawned last ([sp]). *)
Definition exact_ok (cur : option pystr) (sp : list story) (ws : wstate)
    : Prop :=
  match ws with
  | PageFetching page => cur = Some page
  | Joining stories tasks errors =>
      (∃ page html,
          cur = Some page ∧ fetch net page = Ok html ∧
          parse_stories BeautifulSoup html = Ok sp ∧ sp ≠ [])
      ∧ (∀ i s0 s t,
            sp !! i = Some s0 → stories !! i = Some s → tasks !! i = Some t →
            task_exact s0 s t)
      ∧ (errors ≠ [] → ∃ i e, tasks !! i = Some (Failed e))
  | Publishing stories =>
      ∃ page, cur = Some page ∧ scrape_page page = Some stories
              ∧ stories ≠ []
  | _ => True
  end.

(** The stories a worker holds or is about to produce. *)
Definition hold (ws : wstate) : nat :=
  match ws with
  | PageFetching page => page_tasks net BeautifulSoup page
  | Joining stories _ _ | Publishing stories => length stories
  | _ => 0
  end.

(** The state of a worker when every page of the queue is good. *)
Definition happy_ok (q : list pystr) (ws : wstate) : Prop :=
  match ws with
  | Claiming => True
  | PageFetching page => good_page page
  | Joining stories tasks errors =>
      errors = [] ∧ length tasks = length stories ∧
      ∀ i s t,
        stories !! i = Some s → tasks !! i = Some t →
        match t with
        | Pending => is_Some (enrich s)
        | Done => True
        | _ => False
        end
  | Publishing _ => True
  | Terminated o => o = Returned ∧ q = []
  end.
End Scrape.

(** The page a worker took last. *)
Definition cur_page_step (w : nat) (cur : option pystr) (ev : event)
    : option pystr :=
  match ev with
  | EvTake w' page => if bool_decide (w' = w) then Some page else cur
  | _ => cur
  end.

Definition cur_page (w : nat) (tr : list event) : option pystr :=
  foldl (cur_page_step w) None tr.

(** The number of [all_stories.extend] calls. *)
Definition is_publish (ev : event) : bool :=
  match ev with EvPublish _ _ => true | _ => false end.

Definition publications (tr : list event) : nat :=
  length (filter (λ ev, is_publish ev = true) tr).

(** A worker at [queue.get] has taken no page it has not published. *)
Definition credit (ws : wstate) : nat :=
  match ws with Claiming => 1 | _ => 0 end.

(** A story of the result list: the four keys, a non-empty [id], stripped
    [title] and [link], and complete comments. *)
Definition complete_story (s : story) : Prop :=
  dom s = story_keys ∧
  ∃ i t l c,
    s !! py "id" = Some (VStr i) ∧ i ≠ [] ∧
    s !! py "title" = Some (VStr t) ∧ stripped t ∧
    s !! py "link" = Some (VStr l) ∧ stripped l ∧
    s !! py "comments" = Some (VComments c) ∧ Forall complete_comment c.


(** One worker over two pages that both show story A: both pages are
    scraped, then the queue is found empty. *)
Definition sched_two_full : list choice :=
  [(0, Advance); (0, Advance); (0, Complete 0); (0, Advance); (0, Advance);
   (0, Advance); (0, Advance); (0, Complete 0); (0, Advance); (0, Advance);
   (0, Advance)].

Definition trace_two_full : list event :=
  [EvTake 0 (BASE_URL_format 1);
   EvSpawn 0 (BASE_URL_format 1) [story_A];
   EvTaskDone 0 0; EvJoined 0; EvPublish 0 [with_comments story_A];
   EvTake 0 (BASE_URL_format 2);
   EvSpawn 0 (BASE_URL_format 2) [story_A];
   EvTaskDone 0 0; EvJoined 0; EvPublish 0 [with_comments story_A];
   EvEmpty 0].

Definition state_two_full : gstate :=
  GState [] [with_comments story_A; with_comments story_A]
    [Terminated Returned].

(** The run of [sched_AB] over [net_AB]. *)
Definition trace_AB : list event :=
  scenario_trace (BASE_URL_format 1) (BASE_URL_format 2) story_A story_B
    (with_comments story_A) (with_comments story_B) true.

Definition state_AB : gstate :=
  GState [] [with_comments story_A; with_comments story_B]
    [Terminated Returned].


(** ** Python ranges and slices *)

(** [range(start, stop, step)]; a zero step raises [ValueError]. *)
Definition py_range (start stop step : Z) : option (list Z) :=
  if (step =? 0)%Z then None
  else
    let n := if (0 <? step)%Z
             then ((stop - start + step - 1) / step)%Z
             else ((start - stop - step - 1) / (- step))%Z in
    Some ((λ i : nat, (start + Z.of_nat i * step)%Z) <$> seq 0 (Z.to_nat n)).

(** A bound of a slice, brought into [0, len]. *)
Definition slice_index (len i : Z) : Z :=
  if (i <? 0)%Z then Z.max 0 (i + len) else Z.min i len.

(** [l[i:j]] *)
Definition py_slice {A} (l : list A) (i j : Z) : list A :=
  let len := Z.of_nat (length l) in
  let lo := slice_index len i in
  let hi := slice_index len j in
  take (Z.to_nat (hi - lo)) (drop (Z.to_nat lo) l).

(** ** The terminal demo ([demos/terminal_demo.py]) *)

Inductive demo_error :=
| DemoZeroDivisionError
| DemoValueError.

(** [WebScrapingDemo.test_urls] *)
Definition test_urls : list pystr := BASE_URL_format <$> seq 1 10.

(** The chunks of [run_multi_threaded]:
    [urls_per_worker = len(urls) // num_workers] and
    [[urls[i:i + urls_per_worker] for i in range(0, len(urls), urls_per_worker)]]. *)
Definition url_chunks {A} (urls : list A) (num_workers : Z)
    : demo_error + list (list A) :=
  if (num_workers =? 0)%Z then inl DemoZeroDivisionError
  else
    let urls_per_worker := (Z.of_nat (length urls) / num_workers)%Z in
    match py_range 0 (Z.of_nat (length urls)) urls_per_worker with
    | None => inl DemoValueError
    | Some indices =>
        inr ((λ i, py_slice urls i (i + urls_per_worker)) <$> indices)
    end.

Section Demo.
Variable net : pystr → result pystr.
Variable BeautifulSoup : pystr → node.

(** The loop of [fetch_and_parse] over the [.athing] elements. *)
Fixpoint count_stories (stories : list node) (story_count : nat) : nat :=
  match stories with
  | [] => story_count
  | story :: rest =>
      match select_one sel_titleline_a story with
      | Some _ => count_stories rest (story_count + 1)
      | None => count_stories rest story_count
      end
  end.

(** [fetch_and_parse]: any exception of the fetch gives 0. *)
Definition fetch_and_parse (url : pystr) : nat :=
  match net url with
  | Ok html =>
      let soup := BeautifulSoup html in
      count_stories (select sel_athing soup) 0
  | Raise _ => 0
  end.

(** [scrape_pages]: the sum of the counts gathered for the pages. *)
Definition scrape_pages (urls : list pystr) : nat :=
  sum_list (fetch_and_parse <$> urls).

(** The total of [run_single_threaded]. *)
Definition run_single_threaded (urls : list pystr) : nat :=
  scrape_pages urls.

(** The total of [run_multi_threaded]; [ThreadPoolExecutor] raises
    [ValueError] unless [max_workers] is positive. *)
Definition run_multi_threaded (urls : list pystr) (num_workers : Z)
    : demo_error + nat :=
  match url_chunks urls num_workers with
  | inl e => inl e
  | inr chunks =>
      if (num_workers <=? 0)%Z then inl DemoValueError
      else inr (sum_list (scrape_pages <$> chunks))
  end.
End Demo.

(** Every URL gives the page with the odd items. *)
Definition net_odd (url : pystr) : result pystr := Ok page_odd_html.


(** ** The test server ([demos/test_server.py]) *)

(** [Article]; [art_id] is the field [id], and so on. *)
Record Article := {
  art_id : Z;
  art_title : pystr;
  art_author : pystr;
  art_content : pystr;
  art_tags : list pystr;
  art_views : nat
}.

(** [request_stats], without its start time. *)
Record request_stats := {
  total_requests : nat;
  page_views : nat;
  article_views : nat
}.

Record server := {
  stats : request_stats;
  SAMPLE_ARTICLES : list Article
}.

Definition decimal (n : nat) : pystr :=
  py (NilEmpty.string_of_uint (Nat.to_uint n)).

(** The slice [SAMPLE_ARTICLES[start_idx:end_idx]] of [index] and
    [api_articles]. *)
Definition page_slice {A} (l : list A) (page limit : Z) : list A :=
  let start_idx := ((page - 1) * limit)%Z in
  let end_idx := (start_idx + limit)%Z in
  py_slice l start_idx end_idx.

Section Server.
(** The random choices made when the module is loaded and when an article
    is shown. *)
Variable random_author : nat → pystr.
Variable random_tags : nat → list pystr.
Variable random_sample : list Article → nat → list Article.

(** The article built for [i]. *)
Definition sample_article (i : nat) : Article :=
  {| art_id := Z.of_nat i;
     art_title :=
       py "Understanding "
       ++ (if i mod 2 =? 0 then py "Async" else py "Threading")
       ++ py " in Python: Part " ++ decimal i;
     art_author := random_author i;
     art_content :=
       py "This is article " ++ decimal i ++ py ". "
       ++ join (py " ")
            ((λ j, py "Interesting content about topic " ++ decimal j
                   ++ py ".") <$> seq 0 10);
     art_tags := random_tags i;
     art_views := 0 |}.

(** The module as loaded. *)
Definition server_init : server :=
  {| stats := {| total_requests := 0; page_views := 0; article_views := 0 |};
     SAMPLE_ARTICLES := sample_article <$> seq 1 100 |}.

Inductive request :=
| GetIndex (page : Z)
| GetArticle (article_id : Z)
| GetStats
| GetApiStats
| GetApiArticles (page limit : Z)
| GetOther.

(** What a handler hands to its template or returns as JSON. *)
Inductive response :=
| IndexPage (articles : list Article) (page total_pages : Z)
    (st : request_stats)
| ArticlePage (article : Article) (related : list Article)
    (st : request_stats)
| ArticleNotFound
| StatsPage (st : request_stats) (total_article_views : nat)
    (most_viewed : list Article) (total_articles : nat)
| ApiStats (st : request_stats) (total_articles total_article_views : nat)
| ApiArticles (page limit : Z) (total : nat) (articles : list Article)
| NoRoute.

(** [add_stats_middleware], before the handler runs. *)
Definition add_stats_middleware (s : server) : server :=
  {| stats := {| total_requests := total_requests (stats s) + 1;
                 page_views := page_views (stats s);
                 article_views := article_views (stats s) |};
     SAMPLE_ARTICLES := SAMPLE_ARTICLES s |}.

Definition count_page_view (s : server) : server :=
  {| stats := {| total_requests := total_requests (stats s);
                 page_views := page_views (stats s) + 1;
                 article_views := article_views (stats s) |};
     SAMPLE_ARTICLES := SAMPLE_ARTICLES s |}.

Definition count_article_view (s : server) : server :=
  {| stats := {| total_requests := total_requests (stats s);
                 page_views := page_views (stats s);
                 article_views := article_views (stats s) + 1 |};
     SAMPLE_ARTICLES := SAMPLE_ARTICLES s |}.

(** [article.views += 1] *)
Definition viewed (a : Article) : Article :=
  {| art_id := art_id a; art_title := art_title a;
     art_author := art_author a; art_content := art_content a;
     art_tags := art_tags a; art_views := art_views a + 1 |}.

(** [sum(a.views for a in SAMPLE_ARTICLES)] *)
Definition total_article_views (articles : list Article) : nat :=
  sum_list (art_views <$> articles).

(** One place of [sorted(..., key=lambda x: x.views, reverse=True)]: [a]
    goes behind the articles with at least its views. *)
Fixpoint insert_by_views (a : Article) (sorted : list Article)
    : list Article :=
  match sorted with
  | [] => [a]
  | b :: rest =>
      if art_views a <=? art_views b then b :: insert_by_views a rest
      else a :: b :: rest
  end.

(** [sorted(articles, key=lambda x: x.views, reverse=True)], a stable
    sort. *)
Definition sorted_by_views (articles : list Article) : list Article :=
  foldl (λ acc a, insert_by_views a acc) [] articles.

Definition index (page : Z) (s : server) : server * response :=
  let s := count_page_view s in
  let articles_per_page := 10%Z in
  let paginated_articles :=
    page_slice (SAMPLE_ARTICLES s) page articles_per_page in
  let total_pages :=
    ((Z.of_nat (length (SAMPLE_ARTICLES s)) + articles_per_page - 1)
     / articles_per_page)%Z in
  (s, IndexPage paginated_articles page total_pages (stats s)).

Definition article (article_id : Z) (s : server) : server * response :=
  let s := count_article_view s in
  match list_find (λ a, art_id a = article_id) (SAMPLE_ARTICLES s) with
  | None => (s, ArticleNotFound)
  | Some (i, a) =>
      let s' := {| stats := stats s;
                   SAMPLE_ARTICLES := <[i := viewed a]> (SAMPLE_ARTICLES s) |} in
      let related :=
        random_sample
          (filter (λ a, art_id a ≠ article_id) (SAMPLE_ARTICLES s'))
          (Nat.min 3 (length (SAMPLE_ARTICLES s') - 1)) in
      (s', ArticlePage (viewed a) related (stats s'))
  end.

Definition stats_page (s : server) : server * response :=
  (s, StatsPage (stats s) (total_article_views (SAMPLE_ARTICLES s))
        (take 5 (sorted_by_views (SAMPLE_ARTICLES s)))
        (length (SAMPLE_ARTICLES s))).

Definition api_stats (s : server) : server * response :=
  (s, ApiStats (stats s) (length (SAMPLE_ARTICLES s))
        (total_article_views (SAMPLE_ARTICLES s))).

Definition api_articles (page limit : Z) (s : server) : server * response :=
  (s, ApiArticles page limit (length (SAMPLE_ARTICLES s))
        (page_slice (SAMPLE_ARTICLES s) page limit)).

(** One request: the middleware, then the handler of the route. *)
Definition serve (req : request) (s : server) : server * response :=
  let s := add_stats_middleware s in
  match req with
  | GetIndex page => index page s
  | GetArticle article_id => article article_id s
  | GetStats => stats_page s
  | GetApiStats => api_stats s
  | GetApiArticles page limit => api_articles page limit s
  | GetOther => (s, NoRoute)
  end.

(** The server after a sequence of requests, served one after the
    other. *)
Definition serve_all (reqs : list request) (s : server) : server :=
  foldl (λ s req, (serve req s).1) s reqs.

(** The requests for the article [article_id]. *)
Definition is_article_of (article_id : Z) (req : request) : bool :=
  match req with
  | GetArticle j => bool_decide (j = article_id)
  | _ => false
  end.

Definition count_requests (p : request → bool) (reqs : list request) : nat :=
  length (filter (λ req, p req = true) reqs).

(** The sample articles, article [i] viewed once for each request for
    it among [reqs]. *)
Definition articles_after (reqs : list request) : list Article :=
  (λ i, Nat.iter (count_requests (is_article_of (Z.of_nat i)) reqs) viewed
          (sample_article i)) <$> seq 1 100.
End Server.

Arguments articles_after : simpl never.

Definition is_index (req : request) : bool :=
  match req with GetIndex _ => true | _ => false end.

Definition is_article (req : request) : bool :=
  match req with GetArticle _ => true | _ => false end.

(** A request for an article that exists. *)
Definition is_found (req : request) : bool :=
  match req with
  | GetArticle article_id => bool_decide (1 ≤ article_id ≤ 100)%Z
  | _ => false
  end.

(** * Properties *)

(** ** Stripping *)

Lemma lstrip_head s c : head (lstrip s) = Some c → isspace c = false.
Proof.
  induction s as [|a s IH]; simpl; [done|].
  destruct (isspace a) eqn:Ha; [done|].
  simpl. intros [= <-]. done.
Qed.

Lemma lstrip_suffix s : ∃ pre, s = pre ++ lstrip s.
Proof.
  induction s as [|a s [pre IH]]; simpl.
  - by exists [].
  - destruct (isspace a).
    + exists (a :: pre). simpl. by rewrite <- IH.
    + by exists [].
Qed.

Lemma lstrip_last s c : last (lstrip s) = Some c → last s = Some c.
Proof.
  intros H. destruct (lstrip_suffix s) as [pre Hs].
  rewrite Hs, last_app, H. done.
Qed.

Lemma strip_stripped s : stripped (strip s).
Proof.
  unfold stripped, strip, rstrip. split; intros c.
  - rewrite head_reverse. intros H%lstrip_last.
    rewrite last_reverse in H. by apply lstrip_head in H.
  - rewrite last_reverse. apply lstrip_head.
Qed.

(** ** parse_stories *)

Lemma py_keys_distinct :
  py "id" ≠ py "title" ∧ py "id" ≠ py "link" ∧ py "title" ≠ py "link".
Proof. repeat split; discriminate. Qed.

Lemma story_dict_complete i t l :
  i ≠ [] → stripped t → stripped l → complete_record (story_dict i t l).
Proof.
  intros Hi Ht Hl. destruct py_keys_distinct as (H1 & H2 & H3).
  split.
  - unfold story_dict. rewrite !dom_insert_L, dom_empty_L. set_solver.
  - exists i, t, l. unfold story_dict.
    split_and!; done.
Qed.

Lemma record_of_complete item s : record_of item s → complete_record s.
Proof.
  intros (t & i & href & _ & _ & Hi & _ & ->).
  apply story_dict_complete; auto using strip_stripped.
Qed.

Lemma parse_stories_loop_spec items acc out :
  parse_stories_loop items acc = Ok out →
  ∃ new, out = acc ++ new ∧
         Forall2 record_of (filter (λ item, story_item item = true) items) new.
Proof.
  revert acc. induction items as [|item rest IH]; intros acc; simpl.
  - intros [= <-]. exists []. rewrite app_nil_r. split; [done|constructor].
  - destruct (select_one sel_titleline_a item) as [t|] eqn:Ht.
    2:{ rewrite filter_cons_False; [by apply IH|].
        unfold story_item. rewrite Ht. by rewrite bool_decide_eq_false_2 by (by intros [? ?]). }
    destruct (tag_attrs item !! py "id") as [[|c i]|] eqn:Hid.
    1,3: rewrite filter_cons_False; [by apply IH|];
         unfold story_item; rewrite Hid; simpl; rewrite andb_false_r; done.
    destruct (tag_attrs t !! py "href") as [href|] eqn:Hh; [|done].
    intros (new & -> & Hnew)%IH.
    rewrite filter_cons_True.
    2:{ unfold story_item. by rewrite Ht, Hid. }
    eexists (_ :: new). rewrite <- app_assoc. split; [done|].
    constructor; [|done].
    exists t, (c :: i), href. by rewrite Ht, Hid, Hh.
Qed.

(** C10: for every body, when [parse_stories] returns, its records are, in
    order, those of the items that have a title anchor and a non-empty
    [id]; each is a dict with exactly the keys [id], [title] and [link], a
    non-empty [id], and stripped [title] and [link]. Items lacking the
    anchor or the [id] give no record at all. *)
Theorem parse_stories_records (BeautifulSoup : pystr → node)
    (html : pystr) (stories : list story) :
  parse_stories BeautifulSoup html = Ok stories →
  Forall2 record_of
    (filter (λ item, story_item item = true)
       (select sel_athing (BeautifulSoup html))) stories
  ∧ Forall complete_record stories.
Proof.
  unfold parse_stories. intros (new & -> & Hnew)%parse_stories_loop_spec.
  simpl. split; [done|].
  clear -Hnew. induction Hnew; constructor; eauto using record_of_complete.
Qed.

Lemma parse_stories_records_witness :
  parse_stories soup_of page_odd_html
  = Ok [story_dict (py "7") (py "T") (py "/x")]
  ∧ Forall complete_record [story_dict (py "7") (py "T") (py "/x")].
Proof.
  split; [vm_compute; reflexivity|].
  apply (parse_stories_records soup_of page_odd_html).
  vm_compute. reflexivity.
Defined.

(** A title anchor without [href] gives no partial record either:
    [title_tag["href"]] raises. *)
Example parse_stories_no_href :
  parse_stories soup_of page_nohref_html = Raise (KeyError (py "href")).
Proof. vm_compute. reflexivity. Qed.
(** ** Steps and runs *)

Section MachineFacts.
Variable net : pystr → result pystr.
Variable BeautifulSoup : pystr → node.
Variable repr_comments : list (gmap pystr pystr) → pystr.

Local Abbreviation worker_step := (worker_step net BeautifulSoup repr_comments).
Local Abbreviation step := (step net BeautifulSoup repr_comments).
Local Abbreviation run := (run net BeautifulSoup repr_comments).
Local Abbreviation drain := (drain net BeautifulSoup repr_comments).
Local Abbreviation measure := (measure net BeautifulSoup).
Local Abbreviation pool := (pool net BeautifulSoup repr_comments).
Local Abbreviation main := (main net BeautifulSoup repr_comments).

Lemma step_inv c st ev st' :
  step c st = Some (ev, st') →
  ∃ ws q app ws',
    workers st !! c.1 = Some ws ∧
    worker_step c.1 c.2 (queue st) ws = Some (ev, q, app, ws') ∧
    st' = GState q (all_stories st ++ app) (<[c.1 := ws']> (workers st)).
Proof.
  unfold step. intros H.
  destruct (workers st !! c.1) as [ws|] eqn:Hw; simpl in H; [|done].
  destruct (worker_step c.1 c.2 (queue st) ws) as [[[[ev0 q] app] ws']|] eqn:Hs;
    simpl in H; [|done].
  injection H as <- <-. by exists ws, q, app, ws'.
Qed.

Lemma step_intro w a st ws ev q app ws' :
  workers st !! w = Some ws →
  worker_step w a (queue st) ws = Some (ev, q, app, ws') →
  step (w, a) st
  = Some (ev, GState q (all_stories st ++ app) (<[w := ws']> (workers st))).
Proof.
  intros Hw Hs. unfold step. simpl. rewrite Hw. simpl. by rewrite Hs.
Qed.

Lemma step_terminated w a st o :
  workers st !! w = Some (Terminated o) → step (w, a) st = None.
Proof. intros H. unfold step. simpl. rewrite H. by destruct a. Qed.

Lemma wstep_worker w a q ws ev q' app ws' :
  worker_step w a q ws = Some (ev, q', app, ws') → ev_worker ev = w.
Proof.
  intros H. destruct ws, a; simpl in H;
    repeat case_match; simplify_eq; done.
Qed.

Lemma run_cons c sched cfg cfg' :
  run (c :: sched) cfg = Some cfg' →
  ∃ ev st', step c cfg.2 = Some (ev, st') ∧
            run sched (cfg.1 ++ [ev], st') = Some cfg'.
Proof.
  simpl. destruct (step c cfg.2) as [[ev st']|]; [|done]. eauto.
Qed.

(** A property kept by every step holds at the end of every run. *)
Lemma run_invariant (P : list event → gstate → Prop) sched cfg cfg' :
  (∀ c tr st ev st',
      P tr st → step c st = Some (ev, st') → P (tr ++ [ev]) st') →
  P cfg.1 cfg.2 → run sched cfg = Some cfg' → P cfg'.1 cfg'.2.
Proof.
  intros Hstep. revert cfg.
  induction sched as [|c sched IH]; intros cfg HP Hrun.
  - by injection Hrun as <-.
  - apply run_cons in Hrun as (ev & st' & Hs & Hrun).
    apply (IH (cfg.1 ++ [ev], st')); [|done]. simpl. eauto.
Qed.

(** An occurrence of an event in a trace that grew by one event is the
    new event or an occurrence in the old trace. *)
Lemma snoc_split (tr tr1 tr2 : list event) ev ev' :
  tr ++ [ev] = tr1 ++ ev' :: tr2 →
  (tr2 = [] ∧ tr1 = tr ∧ ev' = ev)
  ∨ (∃ tr2', tr2 = tr2' ++ [ev] ∧ tr = tr1 ++ ev' :: tr2').
Proof.
  intros H. destruct tr2 as [|x tr2 _] using rev_ind.
  - left. apply app_inj_tail in H as [-> ->]. done.
  - right. exists tr2.
    change (tr1 ++ ev' :: tr2 ++ [x]) with (tr1 ++ (ev' :: tr2) ++ [x]) in H.
    rewrite app_assoc in H. apply app_inj_tail in H as [-> ->]. done.
Qed.

(** *** The queue and the result list *)

Lemma taken_snoc tr ev :
  taken (tr ++ [ev])
  = taken tr ++ match ev with EvTake _ page => [page] | _ => [] end.
Proof. unfold taken. rewrite omap_app. by destruct ev. Qed.

Lemma published_snoc tr ev :
  published (tr ++ [ev])
  = published tr ++ match ev with EvPublish _ ss => ss | _ => [] end.
Proof.
  unfold published. rewrite omap_app, concat_app.
  destruct ev; simpl; by rewrite ?app_nil_r.
Qed.

(** What a step does to the queue and to the result list is what its
    event says. *)
Lemma wstep_effect w a q ws ev q' app ws' :
  worker_step w a q ws = Some (ev, q', app, ws') →
  q = match ev with EvTake _ page => [page] | _ => [] end ++ q'
  ∧ app = match ev with EvPublish _ ss => ss | _ => [] end.
Proof.
  intros H. destruct ws, a; simpl in H;
    repeat case_match; simplify_eq; done.
Qed.

Lemma queue_sink_invariant sched n urls tr st :
  run sched ([], pool_init n urls) = Some (tr, st) →
  taken tr ++ queue st = urls ∧ all_stories st = published tr.
Proof.
  intros Hrun.
  apply (run_invariant
           (λ tr st, taken tr ++ queue st = urls
                     ∧ all_stories st = published tr)) in Hrun; [done| |done].
  clear. intros c tr st ev st' [Hq Hs] Hstep.
  apply step_inv in Hstep as (ws & q & app & ws' & _ & Hw & ->).
  apply wstep_effect in Hw as [Hq' ->]. simpl.
  rewrite taken_snoc, published_snoc, <- app_assoc, <- Hq', Hs. done.
Qed.

(** *** Tasks of a group *)

Lemma pending_cons t tasks :
  pending (t :: tasks) = (if is_pending t then 1 else 0) + pending tasks.
Proof.
  unfold pending. rewrite filter_cons. by destruct (is_pending t).
Qed.

Lemma pending_spawn {A} (l : list A) :
  pending ((λ _, Pending) <$> l) = length l.
Proof.
  induction l as [|x l IH]; [done|].
  rewrite fmap_cons, pending_cons, IH. done.
Qed.

Lemma pending_cancel tasks : pending (cancel <$> tasks) = 0.
Proof.
  induction tasks as [|t tasks IH]; [done|].
  rewrite fmap_cons, pending_cons, IH. by destruct t.
Qed.

Lemma pending_pos tasks i : tasks !! i = Some Pending → 0 < pending tasks.
Proof.
  revert i. induction tasks as [|t tasks IH]; intros [|i] Hi; simplify_eq/=.
  - rewrite pending_cons. simpl. lia.
  - rewrite pending_cons. specialize (IH i Hi). lia.
Qed.

Lemma pending_insert tasks i t :
  tasks !! i = Some Pending → is_pending t = false →
  pending (<[i:=t]> tasks) = pred (pending tasks).
Proof.
  revert i. induction tasks as [|t0 tasks IH]; intros [|i] Hi Ht;
    simplify_eq/=.
  - rewrite !pending_cons, Ht. done.
  - rewrite !pending_cons, (IH i) by done.
    apply pending_pos in Hi. destruct (is_pending t0); lia.
Qed.

Lemma pending_zero_find tasks :
  list_find (λ t, is_pending t = true) tasks = None → pending tasks = 0.
Proof.
  intros H%list_find_None. unfold pending.
  induction H as [|t tasks Ht _ IH]; [done|].
  rewrite filter_cons_False by done. done.
Qed.

(** *** The join barrier *)

Lemma outstanding_snoc w tr ev :
  outstanding w (tr ++ [ev]) = outstanding_step w (outstanding w tr) ev.
Proof. unfold outstanding. by rewrite foldl_app. Qed.

Lemma outstanding_other w tr ev :
  ev_worker ev ≠ w → outstanding w (tr ++ [ev]) = outstanding w tr.
Proof.
  intros H. rewrite outstanding_snoc. unfold outstanding_step.
  by rewrite bool_decide_eq_false_2.
Qed.

(** A step of worker [w] keeps the count of its outstanding tasks equal
    to the number of pending tasks in its state. *)
Lemma wstep_outstanding w a q ws ev q' app ws' k :
  worker_step w a q ws = Some (ev, q', app, ws') →
  k = wpending ws → outstanding_step w k ev = wpending ws'.
Proof.
  intros H ->. unfold outstanding_step.
  rewrite bool_decide_eq_true_2 by (by eapply wstep_worker).
  destruct ws, a; simpl in H; repeat case_match; simplify_eq; simpl;
    rewrite ?pending_spawn, ?pending_cancel; try done; try lia.
  - rewrite pending_cons. change (list_fmap _ _ ?f ?l) with (f <$> l).
    by rewrite pending_spawn.
  - by rewrite pending_insert.
  - by rewrite pending_insert.
Qed.

Lemma wstep_barrier w a q ws ev q' app ws' :
  worker_step w a q ws = Some (ev, q', app, ws') →
  claims_or_publishes w ev → wpending ws = 0.
Proof.
  intros H. destruct ws, a; simpl in H;
    repeat case_match; simplify_eq; done.
Qed.

Lemma barrier_invariant sched n urls tr st :
  run sched ([], pool_init n urls) = Some (tr, st) →
  (∀ tr1 ev tr2 w,
      tr = tr1 ++ ev :: tr2 → claims_or_publishes w ev →
      outstanding w tr1 = 0)
  ∧ (∀ w ws, workers st !! w = Some ws → outstanding w tr = wpending ws).
Proof.
  intros Hrun.
  apply (run_invariant
           (λ tr st,
              (∀ tr1 ev tr2 w,
                  tr = tr1 ++ ev :: tr2 → claims_or_publishes w ev →
                  outstanding w tr1 = 0)
              ∧ (∀ w ws, workers st !! w = Some ws →
                         outstanding w tr = wpending ws))) in Hrun;
    [done| |].
  - clear. intros [w0 a] tr st ev st' [HT HJ] Hstep.
    apply step_inv in Hstep as (ws & q & app & ws' & Hws & Hw & ->).
    simpl in *. split.
    + intros tr1 ev' tr2 w [(-> & -> & ->)|(tr2' & -> & ->)]%snoc_split Hev.
      * assert (w = w0) as ->.
        { apply wstep_worker in Hw. destruct ev; simpl in *; try done; congruence. }
        rewrite (HJ _ _ Hws). by eapply wstep_barrier.
      * by eapply HT.
    + intros w ws1 Hws1. destruct (decide (w = w0)) as [->|Hne].
      * assert (w0 < length (workers st)) by by eapply lookup_lt_Some.
        rewrite list_lookup_insert_eq in Hws1 by done. simplify_eq.
        rewrite outstanding_snoc. eapply wstep_outstanding; eauto.
      * rewrite list_lookup_insert_ne in Hws1 by done.
        rewrite outstanding_other; [by apply HJ|].
        apply wstep_worker in Hw. congruence.
  - simpl. split.
    + intros tr1 ev tr2 w H. by destruct tr1.
    + intros w ws [-> _]%lookup_replicate. done.
Qed.

(** *** Termination *)

Lemma sum_list_insert (f : wstate → nat) l w ws ws' :
  l !! w = Some ws →
  sum_list (f <$> <[w:=ws']> l) + f ws = sum_list (f <$> l) + f ws'.
Proof.
  revert w. induction l as [|x l IH]; intros [|w] Hw; simplify_eq/=.
  - lia.
  - specialize (IH w Hw). lia.
Qed.

Lemma wstep_measure w a q ws ev q' app ws' :
  worker_step w a q ws = Some (ev, q', app, ws') →
  sum_list ((λ page, 4 + page_tasks net BeautifulSoup page) <$> q')
  + wmeasure net BeautifulSoup ws'
  < sum_list ((λ page, 4 + page_tasks net BeautifulSoup page) <$> q)
    + wmeasure net BeautifulSoup ws.
Proof.
  intros H.
  destruct ws as [|page|stories tasks errors|stories|o], a; simpl in H;
    try done.
  - destruct q as [|page q]; simplify_eq; [simpl; lia|].
    rewrite fmap_cons. simpl. lia.
  - unfold wmeasure at 2. unfold page_tasks.
    destruct (fetch net page) as [html|e]; [|simplify_eq; simpl; lia].
    destruct (parse_stories BeautifulSoup html) as [[|s l]|e];
      simplify_eq; simpl; try lia.
    rewrite pending_cons. change (list_fmap _ _ ?f ?l) with (f <$> l).
    rewrite pending_spawn. simpl. lia.
  - repeat case_match; simplify_eq; simpl; lia.
  - repeat case_match; simplify_eq; simpl;
      rewrite pending_insert by done;
      match goal with
      | E : tasks !! _ = Some Pending |- _ => apply pending_pos in E
      end; lia.
  - repeat case_match; simplify_eq; simpl. rewrite pending_cancel. lia.
  - simplify_eq. simpl. lia.
Qed.

Lemma step_measure c st ev st' :
  step c st = Some (ev, st') → measure st' < measure st.
Proof.
  intros (ws & q & app & ws' & Hws & Hw & ->)%step_inv.
  apply wstep_measure in Hw. unfold measure. cbn [queue workers].
  pose proof (sum_list_insert (wmeasure net BeautifulSoup)
                _ _ _ ws' Hws). lia.
Qed.

Lemma run_length sched cfg cfg' :
  run sched cfg = Some cfg' →
  length sched + measure cfg'.2 ≤ measure cfg.2.
Proof.
  revert cfg. induction sched as [|c sched IH]; intros cfg Hrun.
  - injection Hrun as <-. simpl. lia.
  - apply run_cons in Hrun as (ev & st' & Hs%step_measure & Hrun%IH).
    simpl in *. lia.
Qed.

Lemma run_app s1 s2 cfg cfg1 cfg2 :
  run s1 cfg = Some cfg1 → run s2 cfg1 = Some cfg2 →
  run (s1 ++ s2) cfg = Some cfg2.
Proof.
  revert cfg. induction s1 as [|c s1 IH]; intros cfg H1 H2.
  - by injection H1 as <-.
  - apply run_cons in H1 as (ev & st' & Hs & H1). simpl. rewrite Hs. eauto.
Qed.

Lemma wstep_wf w a q ws ev q' app ws' :
  worker_step w a q ws = Some (ev, q', app, ws') → wf_wstate ws → wf_wstate ws'.
Proof.
  intros H Hwf. destruct ws, a; simpl in H; repeat case_match; simplify_eq;
    simpl in *; rewrite ?length_insert, ?length_fmap; done.
Qed.

Lemma step_wf c st ev st' :
  step c st = Some (ev, st') →
  Forall wf_wstate (workers st) → Forall wf_wstate (workers st').
Proof.
  intros (ws & q & app & ws' & Hws & Hw & ->)%step_inv Hwf. simpl.
  apply Forall_insert; [done|]. eapply wstep_wf; [done|].
  by eapply Forall_lookup_1.
Qed.

Lemma pool_init_wf n urls : Forall wf_wstate (workers (pool_init n urls)).
Proof. simpl. apply Forall_replicate. done. Qed.

Lemma run_wf sched n urls tr st :
  run sched ([], pool_init n urls) = Some (tr, st) →
  Forall wf_wstate (workers st).
Proof.
  intros Hrun.
  apply (run_invariant (λ _ st, Forall wf_wstate (workers st))) in Hrun;
    [done| |apply pool_init_wf].
  intros c tr0 st0 ev st' Hwf Hs. by eapply step_wf.
Qed.

(** A worker that has not ended can always move. *)
Lemma next_action_enabled w q ws a :
  wf_wstate ws → next_action ws = Some a →
  is_Some (worker_step w a q ws).
Proof.
  intros Hwf Ha. destruct ws; simpl in *; simplify_eq; simpl.
  - by destruct q.
  - repeat case_match; done.
  - destruct (list_find _ tasks) as [[i t]|] eqn:Hf; simplify_eq.
    + apply list_find_Some in Hf as (Hi & Ht & _).
      destruct t; try done. simpl. rewrite Hi.
      destruct (stories !! i) as [s|] eqn:Hs.
      * by destruct (fetch_story_with_comments _ _ _ s).
      * apply lookup_ge_None in Hs. apply lookup_lt_Some in Hi. lia.
    + apply pending_zero_find in Hf. simpl. rewrite Hf. by destruct errors.
  - done.
Qed.

Lemma first_choice_spec w0 l c :
  first_choice w0 l = Some c →
  ∃ ws, l !! (c.1 - w0) = Some ws ∧ w0 ≤ c.1 ∧ next_action ws = Some c.2.
Proof.
  revert w0. induction l as [|ws l IH]; intros w0 H; [done|].
  simpl in H. destruct (next_action ws) as [a|] eqn:Ha.
  - injection H as <-. exists ws. simpl. by rewrite Nat.sub_diag.
  - apply IH in H as (ws' & Hl & Hle & Hn). exists ws'.
    replace (c.1 - w0) with (S (c.1 - S w0)) by lia. split_and!; [done|lia|done].
Qed.

Lemma first_choice_None w0 l :
  first_choice w0 l = None → forallb is_terminated l = true.
Proof.
  revert w0. induction l as [|ws l IH]; intros w0 H; [done|].
  simpl in H. destruct (next_action ws) as [a|] eqn:Ha; [done|].
  simpl. rewrite (IH _ H). by destruct ws; simplify_eq/=; repeat case_match.
Qed.

Lemma progress st c :
  Forall wf_wstate (workers st) → first_choice 0 (workers st) = Some c →
  is_Some (step c st).
Proof.
  intros Hwf (ws & Hl & _ & Ha)%first_choice_spec.
  rewrite Nat.sub_0_r in Hl.
  destruct (next_action_enabled c.1 (queue st) ws c.2)
    as [[[[ev q] app] ws'] Hw]; [by eapply Forall_lookup_1|done|].
  destruct c as [w a]. erewrite step_intro; eauto.
Qed.

Lemma drain_terminates fuel cfg :
  Forall wf_wstate (workers cfg.2) → measure cfg.2 ≤ fuel →
  ∃ cfg', drain fuel cfg = Some cfg'
          ∧ all_terminated cfg'.2 = true
          ∧ ∃ sched, run sched cfg = Some cfg'.
Proof.
  revert cfg. induction fuel as [|fuel IH]; intros cfg Hwf Hm.
  - destruct (first_choice 0 (workers cfg.2)) as [c|] eqn:Hc.
    + destruct (progress _ _ Hwf Hc) as [[ev st'] Hs].
      apply step_measure in Hs. lia.
    + exists cfg. simpl. rewrite Hc. split_and!; [done| |by exists []].
      by eapply first_choice_None.
  - simpl. destruct (first_choice 0 (workers cfg.2)) as [c|] eqn:Hc.
    + destruct (progress _ _ Hwf Hc) as [[ev st'] Hs]. rewrite Hs.
      destruct (IH (cfg.1 ++ [ev], st')) as (cfg' & Hd & Ht & sched & Hr).
      * simpl. by eapply step_wf.
      * simpl. apply step_measure in Hs. lia.
      * exists cfg'. split_and!; [done..|]. exists (c :: sched).
        simpl. by rewrite Hs.
    + exists cfg. split_and!; [done| |by exists []].
      by eapply first_choice_None.
Qed.

(** *** Failures *)

(** Once its group holds an exception, a worker neither claims nor
    publishes, and it keeps the exception. *)
Lemma wstep_doomed w a q ws ev q' app ws' e :
  worker_step w a q ws = Some (ev, q', app, ws') → doomed e ws →
  doomed e ws' ∧ ¬ claims_or_publishes w ev.
Proof.
  intros H Hd. destruct ws, a; simpl in H, Hd;
    repeat case_match; simplify_eq; simpl; try done.
  all: try (by apply not_elem_of_nil in Hd).
  all: split; [set_solver|tauto].
Qed.

Lemma wstep_task_failed w a q ws w' i e q' app ws' :
  worker_step w a q ws = Some (EvTaskFailed w' i e, q', app, ws') → doomed e ws'.
Proof.
  intros H. destruct ws, a; simpl in H;
    repeat case_match; simplify_eq; simpl. set_solver.
Qed.

Lemma task_failed_invariant sched n urls tr st :
  run sched ([], pool_init n urls) = Some (tr, st) →
  (∀ tr1 w i e tr2,
      tr = tr1 ++ EvTaskFailed w i e :: tr2 →
      ∀ ev, ev ∈ tr2 → ¬ claims_or_publishes w ev)
  ∧ (∀ w i e, EvTaskFailed w i e ∈ tr →
              ∃ ws, workers st !! w = Some ws ∧ doomed e ws).
Proof.
  intros Hrun.
  apply (run_invariant
           (λ tr st,
              (∀ tr1 w i e tr2,
                  tr = tr1 ++ EvTaskFailed w i e :: tr2 →
                  ∀ ev, ev ∈ tr2 → ¬ claims_or_publishes w ev)
              ∧ (∀ w i e, EvTaskFailed w i e ∈ tr →
                          ∃ ws, workers st !! w = Some ws ∧ doomed e ws)))
    in Hrun; [done| |].
  - clear. intros [w0 a] tr st ev st' [HT HD] Hstep.
    apply step_inv in Hstep as (ws & q & app & ws' & Hws & Hw & ->).
    simpl in *.
    assert (w0 < length (workers st)) as Hlt by by eapply lookup_lt_Some.
    split.
    + intros tr1 w i e tr2 [(-> & -> & <-)|(tr2' & -> & ->)]%snoc_split
        ev' Hin.
      { by apply not_elem_of_nil in Hin. }
      apply elem_of_app in Hin as [Hin|Hin%list_elem_of_singleton].
      { by eapply HT. }
      subst ev'.
      intros Hev.
      assert (w = w0) as ->.
      { apply wstep_worker in Hw. destruct ev; simpl in *; try done;
          congruence. }
      destruct (HD w0 i e) as (ws0 & Hws0 & Hd); [set_solver|].
      simplify_eq. by destruct (wstep_doomed _ _ _ _ _ _ _ _ _ Hw Hd).
    + intros w i e [Hin|Hin%list_elem_of_singleton]%elem_of_app.
      * destruct (HD w i e Hin) as (ws0 & Hws0 & Hd).
        destruct (decide (w = w0)) as [->|Hne].
        -- simplify_eq. exists ws'.
           rewrite list_lookup_insert_eq by done.
           split; [done|].
           by destruct (wstep_doomed _ _ _ _ _ _ _ _ _ Hw Hd).
        -- exists ws0. by rewrite list_lookup_insert_ne.
      * subst ev. pose proof (wstep_worker _ _ _ _ _ _ _ _ Hw) as Hev.
        simpl in Hev. subst w. exists ws'.
        rewrite list_lookup_insert_eq by done.
        split; [done|]. by eapply wstep_task_failed.
  - simpl. split.
    + intros tr1 w i e tr2 H. by destruct tr1.
    + intros w i e H. by apply not_elem_of_nil in H.
Qed.

Lemma wstep_fetch_failed w a q ws w' page e q' app ws' :
  worker_step w a q ws = Some (EvFetchFailed w' page e, q', app, ws') →
  ws' = Terminated (Raised (ExceptionGroup [e])).
Proof.
  intros H. destruct ws, a; simpl in H;
    repeat case_match; simplify_eq; done.
Qed.

Lemma wstep_terminated w a q o : worker_step w a q (Terminated o) = None.
Proof. by destruct a. Qed.

Lemma fetch_failed_invariant sched n urls tr st :
  run sched ([], pool_init n urls) = Some (tr, st) →
  (∀ tr1 w page e tr2,
      tr = tr1 ++ EvFetchFailed w page e :: tr2 →
      ∀ ev, ev ∈ tr2 → ev_worker ev ≠ w)
  ∧ (∀ w page e, EvFetchFailed w page e ∈ tr →
       workers st !! w = Some (Terminated (Raised (ExceptionGroup [e])))).
Proof.
  intros Hrun.
  apply (run_invariant
           (λ tr st,
              (∀ tr1 w page e tr2,
                  tr = tr1 ++ EvFetchFailed w page e :: tr2 →
                  ∀ ev, ev ∈ tr2 → ev_worker ev ≠ w)
              ∧ (∀ w page e, EvFetchFailed w page e ∈ tr →
                   workers st !! w
                   = Some (Terminated (Raised (ExceptionGroup [e]))))))
    in Hrun; [done| |].
  - clear. intros [w0 a] tr st ev st' [HT HD] Hstep.
    apply step_inv in Hstep as (ws & q & app & ws' & Hws & Hw & ->).
    simpl in *.
    assert (w0 < length (workers st)) as Hlt by by eapply lookup_lt_Some.
    pose proof (wstep_worker _ _ _ _ _ _ _ _ Hw) as Hev.
    assert (∀ w page e, EvFetchFailed w page e ∈ tr → w ≠ w0) as Hother.
    { intros w page e Hin ->. rewrite (HD _ _ _ Hin) in Hws.
      injection Hws as <-. by rewrite wstep_terminated in Hw. }
    split.
    + intros tr1 w page e tr2
        [(-> & -> & <-)|(tr2' & -> & ->)]%snoc_split ev' Hin.
      { by apply not_elem_of_nil in Hin. }
      apply elem_of_app in Hin as [Hin|Hin%list_elem_of_singleton].
      { by eapply HT. }
      subst ev'.
      intros Heq. apply (Hother w page e); [|congruence].
      apply elem_of_app. right. left.
    + intros w page e [Hin|Hin%list_elem_of_singleton]%elem_of_app.
      * rewrite list_lookup_insert_ne by (by intros <-; eapply Hother).
        by eapply HD.
      * subst ev. simpl in Hev. subst w.
        rewrite list_lookup_insert_eq by done.
        f_equal. by eapply wstep_fetch_failed.
  - simpl. split.
    + intros tr1 w page e tr2 H. by destruct tr1.
    + intros w page e H. by apply not_elem_of_nil in H.
Qed.

(** *** The records of a page *)

Lemma spawned_snoc w tr ev :
  spawned w (tr ++ [ev]) = spawned_step w (spawned w tr) ev.
Proof. unfold spawned. by rewrite foldl_app. Qed.

Lemma spawned_other w tr ev :
  ev_worker ev ≠ w → spawned w (tr ++ [ev]) = spawned w tr.
Proof.
  intros H. rewrite spawned_snoc. destruct ev; simpl in *; try done.
  by rewrite bool_decide_eq_false_2.
Qed.

Lemma fetch_story_enriched s s' :
  fetch_story_with_comments net BeautifulSoup repr_comments s = Ok s' →
  enriched s s'.
Proof.
  unfold fetch_story_with_comments. intros H.
  repeat case_match; simplify_eq. by eexists.
Qed.

Lemma pending_zero tasks i t :
  pending tasks = 0 → tasks !! i = Some t → is_pending t = false.
Proof.
  intros Hp Hi. destruct t; try done. apply pending_pos in Hi. lia.
Qed.

Lemma wstep_page_ok w a q ws ev q' app ws' sp :
  worker_step w a q ws = Some (ev, q', app, ws') →
  page_ok sp ws → page_ok (spawned_step w sp ev) ws'.
Proof.
  intros H Hok.
  destruct ws as [|page|stories tasks errors|stories|o], a; simpl in H;
    try done.
  - repeat case_match; simplify_eq; done.
  - repeat case_match; simplify_eq; simpl; try done.
    rewrite bool_decide_eq_true_2 by done.
    change (list_fmap _ _ ?f ?l) with (f <$> l).
    rewrite length_fmap. split_and!; [done..|].
    intros i s0 s1 t Hs0 Hs1 Ht. destruct i; simplify_eq/=; [done|].
    rewrite list_lookup_fmap, Hs0 in Ht. by simplify_eq/=.
  - destruct Hok as (Hl1 & Hl2 & Hok).
    destruct (pending tasks) eqn:Hp; [|done].
    destruct errors; simplify_eq; simpl; [|done].
    apply Forall2_same_length_lookup_2; [done|].
    intros i s0 s Hs0 Hs.
    destruct (lookup_lt_is_Some_2 tasks i) as [t Ht].
    { rewrite Hl2. by eapply lookup_lt_Some. }
    specialize (Hok i s0 s t Hs0 Hs Ht).
    pose proof (pending_zero _ _ _ Hp Ht). by destruct t.
  - destruct Hok as (Hl1 & Hl2 & Hok).
    destruct (tasks !! i) as [[| | |]|] eqn:Hti; try done.
    destruct (stories !! i) as [si|] eqn:Hsi; [|done].
    pose proof (lookup_lt_Some _ _ _ Hti) as Hlt.
    destruct (fetch_story_with_comments _ _ _ si) as [s'|e] eqn:Hf;
      simplify_eq; simpl; rewrite ?length_insert; split_and!; try done.
    + intros j s0 s t Hs0 Hs Ht. destruct (decide (j = i)) as [->|Hne].
      * rewrite list_lookup_insert_eq in Hs by lia.
        rewrite list_lookup_insert_eq in Ht by lia. simplify_eq. simpl.
        destruct (lookup_lt_is_Some_2 stories i) as [x Hx]; [lia|].
        simplify_eq. specialize (Hok i s0 si Pending Hs0 Hsi Hti).
        simpl in Hok. subst. by apply fetch_story_enriched.
      * rewrite list_lookup_insert_ne in Hs by done.
        rewrite list_lookup_insert_ne in Ht by done.
        by apply (Hok j).
    + intros j s0 s t Hs0 Hs Ht. destruct (decide (j = i)) as [->|Hne].
      * rewrite list_lookup_insert_eq in Ht by lia. simplify_eq. simpl.
        by destruct errors.
      * rewrite list_lookup_insert_ne in Ht by done.
        specialize (Hok j s0 s t Hs0 Hs Ht).
        destruct t; simpl in *; try done; by destruct errors.
  - destruct Hok as (Hl1 & Hl2 & Hok).
    destruct errors as [|e0 errors]; [done|].
    destruct (pending tasks); simplify_eq. simpl. rewrite length_fmap.
    split_and!; [done..|].
    intros j s0 s t Hs0 Hs Ht.
    rewrite list_lookup_fmap in Ht.
    destruct (tasks !! j) as [t0|] eqn:Ht0; simplify_eq/=.
    specialize (Hok j s0 s t0 Hs0 Hs Ht0). by destruct t0.
  - by simplify_eq.
Qed.

Lemma wstep_publish w a q ws w' ss q' app ws' sp :
  worker_step w a q ws = Some (EvPublish w' ss, q', app, ws') →
  page_ok sp ws → Forall2 enriched sp ss.
Proof.
  intros H Hok. destruct ws, a; simpl in H;
    repeat case_match; simplify_eq; done.
Qed.

Lemma page_invariant sched n urls tr st :
  run sched ([], pool_init n urls) = Some (tr, st) →
  (∀ tr1 w ss tr2,
      tr = tr1 ++ EvPublish w ss :: tr2 →
      Forall2 enriched (spawned w tr1) ss)
  ∧ (∀ w ws, workers st !! w = Some ws → page_ok (spawned w tr) ws).
Proof.
  intros Hrun.
  apply (run_invariant
           (λ tr st,
              (∀ tr1 w ss tr2,
                  tr = tr1 ++ EvPublish w ss :: tr2 →
                  Forall2 enriched (spawned w tr1) ss)
              ∧ (∀ w ws, workers st !! w = Some ws →
                         page_ok (spawned w tr) ws))) in Hrun; [done| |].
  - clear. intros [w0 a] tr st ev st' [HT HJ] Hstep.
    apply step_inv in Hstep as (ws & q & app & ws' & Hws & Hw & ->).
    simpl in *. split.
    + intros tr1 w ss tr2 [(-> & -> & <-)|(tr2' & -> & ->)]%snoc_split.
      * pose proof (wstep_worker _ _ _ _ _ _ _ _ Hw) as Hev.
        simpl in Hev. subst w.
        eapply wstep_publish; [done|]. by apply HJ.
      * by eapply HT.
    + intros w ws1 Hws1. destruct (decide (w = w0)) as [->|Hne].
      * assert (w0 < length (workers st)) by by eapply lookup_lt_Some.
        rewrite list_lookup_insert_eq in Hws1 by done. simplify_eq.
        rewrite spawned_snoc. eapply wstep_page_ok; eauto.
      * rewrite list_lookup_insert_ne in Hws1 by done.
        rewrite spawned_other; [by apply HJ|].
        apply wstep_worker in Hw. congruence.
  - simpl. split.
    + intros tr1 w ss tr2 H. by destruct tr1.
    + intros w ws [-> _]%lookup_replicate. done.
Qed.

(** *** The claims about the pool *)

(** C1 (amended): in every run, the page URLs handed out by [queue.get]
    across all workers, in order, followed by the URLs still in the
    queue, are the URLs enqueued. So each URL is delivered to at most one
    call and none is delivered twice; the URLs left when the workers have
    stopped are not delivered at all. *)
Theorem queue_delivery sched n urls tr st :
  run sched ([], pool_init n urls) = Some (tr, st) →
  taken tr ++ queue st = urls.
Proof. intros H. by apply queue_sink_invariant in H as [? _]. Qed.

(** C2: whenever a worker publishes a page's stories or claims a page,
    none of the tasks it has spawned is outstanding; what it publishes are
    the stories of its last spawn, each with its comments attached; and
    stories reach the result list through these publications only. *)
Theorem join_barrier sched n urls tr st tr1 ev tr2 w :
  run sched ([], pool_init n urls) = Some (tr, st) →
  tr = tr1 ++ ev :: tr2 → claims_or_publishes w ev →
  outstanding w tr1 = 0
  ∧ (∀ stories, ev = EvPublish w stories →
                Forall2 enriched (spawned w tr1) stories)
  ∧ all_stories st = published tr.
Proof.
  intros Hrun Htr Hev. split_and!.
  - apply barrier_invariant in Hrun as [HT _]. by eapply HT.
  - intros stories ->. apply page_invariant in Hrun as [HP _]. by eapply HP.
  - by apply queue_sink_invariant in Hrun as [_ ?].
Qed.

(** C3 (amended): after the comment fetch of a story has failed, the
    worker publishes nothing more and claims no page: its group holds the
    exception, no story of the page reaches the result list, the group
    can cancel the tasks still pending, and the worker ends by raising
    the group. *)
Theorem secondary_failure_drops_page sched n urls tr st tr1 w i e tr2 :
  run sched ([], pool_init n urls) = Some (tr, st) →
  tr = tr1 ++ EvTaskFailed w i e :: tr2 →
  (∀ ev, ev ∈ tr2 → ¬ claims_or_publishes w ev)
  ∧ (∃ ws, workers st !! w = Some ws ∧ doomed e ws)
  ∧ (∀ stories tasks errors,
        workers st !! w = Some (Joining stories tasks errors) →
        0 < pending tasks →
        ∃ st', step (w, Abort) st = Some (EvAbort w (pending tasks), st')
               ∧ workers st' !! w
                 = Some (Joining stories (cancel <$> tasks) errors)
               ∧ all_stories st' = all_stories st)
  ∧ (all_terminated st = true →
     ∃ errors, workers st !! w
               = Some (Terminated (Raised (ExceptionGroup errors)))
               ∧ e ∈ errors).
Proof.
  intros Hrun ->. apply task_failed_invariant in Hrun as [HT HD].
  destruct (HD w i e) as (ws & Hws & Hd); [set_solver|].
  split_and!.
  - by eapply HT.
  - by exists ws.
  - intros stories tasks errors Hj Hp.
    rewrite Hj in Hws. injection Hws as <-. simpl in Hd.
    destruct errors as [|e0 errors]; [by apply not_elem_of_nil in Hd|].
    assert (worker_step w Abort (queue st) (Joining stories tasks (e0 :: errors))
            = Some (EvAbort w (pending tasks), queue st, [],
                    Joining stories (cancel <$> tasks) (e0 :: errors)))
      as Hw.
    { simpl. destruct (pending tasks); [lia|done]. }
    eexists. rewrite (step_intro _ _ _ _ _ _ _ _ Hj Hw).
    split_and!; [done| |by rewrite app_nil_r].
    simpl. apply list_lookup_insert_eq. by eapply lookup_lt_Some.
  - intros Hall. unfold all_terminated in Hall.
    rewrite forallb_forall in Hall.
    assert (is_terminated ws = true) as Ht.
    { apply Hall. apply list_elem_of_In. by eapply list_elem_of_lookup_2. }
    destruct ws as [| | | |[|[]]]; try done. by eexists.
Qed.

(** C4 (amended): a failed fetch of a page ends the worker by raising
    the exception in a group; the worker does nothing afterwards. With
    threads the exception stays in the executor and [main] prints its
    totals; without threads it leaves [main]. *)
Theorem primary_failure_ends_worker n urls sched tr st tr1 w page e tr2
    elapsed :
  pool n urls sched = Some (tr, st) →
  tr = tr1 ++ EvFetchFailed w page e :: tr2 →
  workers st !! w = Some (Terminated (Raised (ExceptionGroup [e])))
  ∧ (∀ ev, ev ∈ tr2 → ev_worker ev ≠ w)
  ∧ (Qeq_bool elapsed 0 = false →
     (main_finish true elapsed st).2 = Returned)
  ∧ (w = 0 →
     main_finish false elapsed st
     = ([LUsingSingleThread], Raised (ExceptionGroup [e]))).
Proof.
  unfold pool. intros Hpool ->.
  destruct (run _ _) as [[tr' st']|] eqn:Hrun; [|done].
  destruct (all_terminated st'); simplify_eq.
  apply fetch_failed_invariant in Hrun as [HT HD].
  assert (workers st !! w
          = Some (Terminated (Raised (ExceptionGroup [e])))) as Hw.
  { apply (HD w page e). set_solver. }
  split_and!.
  - done.
  - by eapply HT.
  - intros He. unfold main_finish. simpl. by rewrite He.
  - intros ->. unfold main_finish, escaped. by rewrite Hw.
Qed.

(** C5: a pool of at least one worker over a finite list of pages always
    ends: no run is longer than [measure], a run that has not ended can
    go on, and the run that serves the first ready worker ends with every
    worker terminated; so [main] ends in either mode. *)
Theorem pool_terminates n urls :
  1 ≤ n →
  (∀ sched tr st,
      run sched ([], pool_init n urls) = Some (tr, st) →
      length sched ≤ measure (pool_init n urls)
      ∧ (all_terminated st = false → ∃ c, is_Some (step c st)))
  ∧ (∀ fuel,
        measure (pool_init n urls) ≤ fuel →
        ∃ tr st, drain fuel ([], pool_init n urls) = Some (tr, st)
                 ∧ all_terminated st = true)
  ∧ (∃ sched tr st, pool n urls sched = Some (tr, st))
  ∧ (∀ multithreaded elapsed,
        ∃ sched r, main multithreaded sched elapsed = Some r).
Proof.
  intros _. split_and!.
  - intros sched tr st Hrun. split.
    + apply run_length in Hrun. simpl in *. lia.
    + intros Hall. pose proof (run_wf _ _ _ _ _ Hrun) as Hwf.
      destruct (first_choice 0 (workers st)) as [c|] eqn:Hc.
      * exists c. by apply progress.
      * apply first_choice_None in Hc. unfold all_terminated in Hall.
        congruence.
  - intros fuel Hf.
    destruct (drain_terminates fuel ([], pool_init n urls))
      as ([tr st] & Hd & Ht & _); [apply pool_init_wf|done|]. eauto.
  - destruct (drain_terminates (measure (pool_init n urls))
                ([], pool_init n urls))
      as ([tr st] & _ & Ht & sched & Hr); [apply pool_init_wf|done|].
    exists sched, tr, st. unfold pool. rewrite Hr. simpl in Ht.
    by rewrite Ht.
  - intros multithreaded elapsed.
    destruct (drain_terminates
                (measure (pool_init (main_workers multithreaded) main_pages))
                ([], pool_init (main_workers multithreaded) main_pages))
      as ([tr st] & _ & Ht & sched & Hr); [apply pool_init_wf|done|].
    exists sched. unfold main, pool. rewrite Hr. simpl in Ht.
    rewrite Ht. eauto.
Qed.

(** C6: a worker whose [queue.get] finds the queue empty, or whose page
    parses to no story, returns at its next step without touching the
    queue or the result list; these are the only two ways in which a
    worker returns; and a worker that has ended takes no further step. *)
Theorem worker_stop_rule w st ws :
  workers st !! w = Some ws →
  ((ws = Claiming ∧ queue st = [])
   ∨ (∃ page html, ws = PageFetching page ∧ fetch net page = Ok html
                   ∧ parse_stories BeautifulSoup html = Ok []) →
   ∃ ev st', step (w, Advance) st = Some (ev, st')
             ∧ workers st' !! w = Some (Terminated Returned)
             ∧ queue st' = queue st ∧ all_stories st' = all_stories st
             ∧ (∀ a, step (w, a) st' = None)
             ∧ (∀ a, a ≠ Advance → step (w, a) st = None))
  ∧ (∀ a ev st',
        step (w, a) st = Some (ev, st') →
        workers st' !! w = Some (Terminated Returned) →
        (ws = Claiming ∧ queue st = [])
        ∨ (∃ page html, ws = PageFetching page ∧ fetch net page = Ok html
                        ∧ parse_stories BeautifulSoup html = Ok []))
  ∧ (is_terminated ws = true → ∀ a, step (w, a) st = None).
Proof.
  intros Hws.
  assert (w < length (workers st)) as Hlt by by eapply lookup_lt_Some.
  split_and!.
  - intros Hrule.
    assert (worker_step w Advance (queue st) ws
            = Some (match ws with
                    | Claiming => EvEmpty w
                    | PageFetching page => EvNoStories w page
                    | _ => EvEmpty w
                    end, queue st, [], Terminated Returned)
            ∧ ∀ a, a ≠ Advance → worker_step w a (queue st) ws = None)
      as [Hw Hother].
    { destruct Hrule as [[-> Hq]|(page & html & -> & Hf & Hp)]; simpl.
      - rewrite Hq. split; [done|]. by intros [].
      - rewrite Hf, Hp. split; [done|]. by intros []. }
    eexists _, _. split; [exact (step_intro _ _ _ _ _ _ _ _ Hws Hw)|].
    simpl.
    rewrite list_lookup_insert_eq by done. rewrite app_nil_r.
    split_and!; try done.
    + intros a. eapply step_terminated. simpl.
      by apply list_lookup_insert_eq.
    + intros a Ha. unfold step. simpl. rewrite Hws. simpl.
      by rewrite Hother.
  - intros a ev st' (ws0 & q & app & ws' & Hws0 & Hw & ->)%step_inv Ht.
    simpl in *. rewrite list_lookup_insert_eq in Ht by done.
    rewrite Hws in Hws0. injection Hws0 as <-. injection Ht as ->.
    clear Hws. destruct ws, a; simpl in Hw; repeat case_match; simplify_eq.
    + by left.
    + right. eauto.
  - intros Ht a. destruct ws; try done. by eapply step_terminated.
Qed.

(** *** One worker *)

Lemma run_one_inv sched tr0 q sink ws tr st :
  run sched (tr0, GState q sink [ws]) = Some (tr, st) →
  (sched = [] ∧ tr = tr0 ∧ st = GState q sink [ws])
  ∨ (∃ a sched' ev q' app ws',
        sched = (0, a) :: sched' ∧
        worker_step 0 a q ws = Some (ev, q', app, ws') ∧
        run sched' (tr0 ++ [ev], GState q' (sink ++ app) [ws'])
        = Some (tr, st)).
Proof.
  destruct sched as [|[w a] sched]; intros Hrun.
  - left. by injection Hrun as <- <-.
  - right. apply run_cons in Hrun as (ev & st' & Hs & Hrun).
    apply step_inv in Hs as (ws0 & q' & app & ws' & Hws & Hw & ->).
    simpl in *. destruct w as [|w]; [|done]. simplify_eq/=.
    by exists a, sched, ev, q', app, ws'.
Qed.

(** One step of the only worker of a pool, by cases on the action. *)
Local Ltac scenario_step Hrun Hall :=
  let a := fresh "a" in
  let Hw := fresh "Hw" in
  apply run_one_inv in Hrun
    as [(-> & -> & ->)
       |(a & ? & ? & ? & ? & ? & -> & Hw & Hrun)];
  [try discriminate Hall
  |destruct a as [|[|[|?]]|]; simpl in Hw;
   repeat match goal with
          | E : _ = Ok _ |- _ => rewrite E in Hw
          end;
   simpl in Hw; try discriminate Hw;
   injection Hw as <- <- <- <-; simpl in Hrun].

(** C7: one worker over the queue [P1; P2], where [P1] parses to the
    stories [A] and [B], [P2] parses to no story and both comment fetches
    succeed: every complete run claims [P1], spawns the two tasks, joins
    them, publishes [A] and [B] with their comments, claims [P2] and
    returns; the result list holds exactly these two stories, nothing
    has failed, and such a run exists. *)
Theorem scenario_two_pages P1 P2 h1 h2 A B A' B' :
  fetch net P1 = Ok h1 → parse_stories BeautifulSoup h1 = Ok [A; B] →
  fetch net P2 = Ok h2 → parse_stories BeautifulSoup h2 = Ok [] →
  fetch_story_with_comments net BeautifulSoup repr_comments A = Ok A' →
  fetch_story_with_comments net BeautifulSoup repr_comments B = Ok B' →
  (∀ sched tr st,
      pool 1 [P1; P2] sched = Some (tr, st) →
      (∃ A_first, tr = scenario_trace P1 P2 A B A' B' A_first)
      ∧ st = GState [] [A'; B'] [Terminated Returned]
      ∧ failures tr = 0)
  ∧ pool 1 [P1; P2]
      [(0, Advance); (0, Advance); (0, Complete 0); (0, Complete 1);
       (0, Advance); (0, Advance); (0, Advance); (0, Advance)]
    = Some (scenario_trace P1 P2 A B A' B' true,
            GState [] [A'; B'] [Terminated Returned]).
Proof.
  intros Hf1 Hp1 Hf2 Hp2 HA HB. split.
  - intros sched tr st. unfold pool.
    destruct (run _ _) as [[tr' st']|] eqn:Hrun; [|done].
    destruct (all_terminated st') eqn:Hall; [|done].
    intros [= -> ->]. unfold pool_init in Hrun. simpl in Hrun.
    scenario_step Hrun Hall.
    scenario_step Hrun Hall.
    scenario_step Hrun Hall.
    + (* the task of A ends first *)
      scenario_step Hrun Hall. scenario_step Hrun Hall.
      scenario_step Hrun Hall. scenario_step Hrun Hall.
      scenario_step Hrun Hall. scenario_step Hrun Hall.
      split_and!; [by exists true|done..].
    + (* the task of B ends first *)
      scenario_step Hrun Hall. scenario_step Hrun Hall.
      scenario_step Hrun Hall. scenario_step Hrun Hall.
      scenario_step Hrun Hall. scenario_step Hrun Hall.
      split_and!; [by exists false|done..].
  - unfold pool, run, step. simpl. rewrite Hf1, Hp1. simpl. rewrite HA.
    simpl. rewrite HB. simpl. rewrite Hf2, Hp2. done.
Qed.

(** *** What [main] prints *)

(** C8 (amended): when [main] completes, the total it prints is the
    number of stories appended to the result list and the speed it
    prints is that number divided by the elapsed time; it prints no
    count of errors. *)
Theorem printed_totals multithreaded sched elapsed tr lines :
  main multithreaded sched elapsed = Some (tr, (lines, Returned)) →
  lines
  = [if multithreaded then LUsingMultithreading else LUsingSingleThread;
     LRule;
     LTotal (length (published tr));
     LElapsed elapsed;
     LSpeed (inject_Z (Z.of_nat (length (published tr))) / elapsed);
     LRule]
  ∧ Qeq_bool elapsed 0 = false.
Proof.
  unfold main, pool.
  destruct (run _ _) as [[tr' st]|] eqn:Hrun; [|done].
  destruct (all_terminated st); [|done]. intros [= -> Hfin].
  apply queue_sink_invariant in Hrun as [_ Hsink].
  unfold main_finish in Hfin. rewrite Hsink in Hfin.
  destruct (escaped multithreaded st); [done|].
  destruct (Qeq_bool elapsed 0); [done|].
  by injection Hfin as <-.
Qed.
End MachineFacts.

(** ** The claims on concrete runs *)

(** C1, as stated, fails: page 1 has no story, so the only worker returns
    and page 2 is never taken from the queue. *)
Lemma exactly_once_counterexample :
  ∃ tr st,
    pool net_empty_first soup_of repr_none 1 two_pages
      [(0, Advance); (0, Advance)] = Some (tr, st)
    ∧ taken tr = [BASE_URL_format 1]
    ∧ queue st = [BASE_URL_format 2]
    ∧ ¬ taken tr ≡ₚ two_pages.
Proof.
  exists [EvTake 0 (BASE_URL_format 1); EvNoStories 0 (BASE_URL_format 1)],
    (GState [BASE_URL_format 2] [] [Terminated Returned]).
  split_and!; [by vm_compute..|].
  intros H%Permutation_length. discriminate H.
Qed.

Lemma queue_delivery_witness :
  taken [EvTake 0 (BASE_URL_format 1); EvNoStories 0 (BASE_URL_format 1)]
  ++ [BASE_URL_format 2] = two_pages.
Proof.
  apply (queue_delivery net_empty_first soup_of repr_none
           [(0, Advance); (0, Advance)] 1 two_pages
           [EvTake 0 (BASE_URL_format 1); EvNoStories 0 (BASE_URL_format 1)]
           (GState [BASE_URL_format 2] [] [Terminated Returned])).
  vm_compute. reflexivity.
Defined.

Lemma join_barrier_witness :
  outstanding 0
    [EvTake 0 (BASE_URL_format 1);
     EvSpawn 0 (BASE_URL_format 1) [story_A; story_B];
     EvTaskDone 0 0; EvTaskDone 0 1; EvJoined 0] = 0
  ∧ Forall2 enriched [story_A; story_B]
      [with_comments story_A; with_comments story_B].
Proof.
  destruct (join_barrier net_AB soup_of repr_none sched_AB 1 two_pages
              (scenario_trace (BASE_URL_format 1) (BASE_URL_format 2)
                 story_A story_B (with_comments story_A)
                 (with_comments story_B) true)
              (GState [] [with_comments story_A; with_comments story_B]
                 [Terminated Returned])
              [EvTake 0 (BASE_URL_format 1);
               EvSpawn 0 (BASE_URL_format 1) [story_A; story_B];
               EvTaskDone 0 0; EvTaskDone 0 1; EvJoined 0]
              (EvPublish 0 [with_comments story_A; with_comments story_B])
              [EvTake 0 (BASE_URL_format 2);
               EvNoStories 0 (BASE_URL_format 2)] 0)
    as (H1 & H2 & _).
  - vm_compute. reflexivity.
  - reflexivity.
  - reflexivity.
  - split; [exact H1|]. exact (H2 _ eq_refl).
Defined.

(** C3, as stated, fails: the comment page of B times out, the group
    cancels the task of A, the worker raises, and neither B nor A reaches
    the result list. *)
Lemma partial_result_counterexample :
  pool net_AB_timeout soup_of repr_none 1 two_pages sched_B_fails
  = Some (trace_B_fails, state_B_fails)
  ∧ all_stories state_B_fails = [].
Proof. split; [vm_compute|]; reflexivity. Qed.

Lemma secondary_failure_drops_page_witness :
  (∀ ev, ev ∈ [EvAbort 0 1; EvGroupRaised 0 [TimeoutError]] →
         ¬ claims_or_publishes 0 ev)
  ∧ all_stories state_B_fails = [].
Proof.
  split; [|reflexivity].
  apply (secondary_failure_drops_page net_AB_timeout soup_of repr_none
           sched_B_fails 1 two_pages trace_B_fails state_B_fails
           [EvTake 0 (BASE_URL_format 1);
            EvSpawn 0 (BASE_URL_format 1) [story_A; story_B]]
           0 1 TimeoutError
           [EvAbort 0 1; EvGroupRaised 0 [TimeoutError]]).
  - vm_compute. reflexivity.
  - reflexivity.
Defined.

(** C4, as stated, fails: without threads, the failed fetch of page 1
    leaves the worker and [main] as an exception, before anything is
    printed but the banner. *)
Lemma primary_failure_counterexample :
  main net_down soup_of repr_none false [(0, Advance); (0, Advance)] 1
  = Some ([EvTake 0 (BASE_URL_format 1);
           EvFetchFailed 0 (BASE_URL_format 1) ClientError],
          ([LUsingSingleThread], Raised (ExceptionGroup [ClientError]))).
Proof. vm_compute. reflexivity. Qed.

Lemma primary_failure_ends_worker_witness :
  workers
    (GState [BASE_URL_format 2] []
       [Terminated (Raised (ExceptionGroup [ClientError]))]) !! 0
  = Some (Terminated (Raised (ExceptionGroup [ClientError]))).
Proof.
  apply (primary_failure_ends_worker net_down soup_of repr_none 1 two_pages
           [(0, Advance); (0, Advance)]
           [EvTake 0 (BASE_URL_format 1);
            EvFetchFailed 0 (BASE_URL_format 1) ClientError]
           (GState [BASE_URL_format 2] []
              [Terminated (Raised (ExceptionGroup [ClientError]))])
           [EvTake 0 (BASE_URL_format 1)] 0 (BASE_URL_format 1) ClientError
           [] 1).
  - vm_compute. reflexivity.
  - reflexivity.
Defined.

Lemma pool_terminates_witness :
  1 ≤ 1
  ∧ ∃ sched tr st, pool net_AB soup_of repr_none 1 two_pages sched
                   = Some (tr, st).
Proof.
  split; [lia|].
  apply (pool_terminates net_AB soup_of repr_none 1 two_pages). lia.
Defined.

Lemma worker_stop_rule_witness :
  workers (GState [] [] [Claiming]) !! 0 = Some Claiming
  ∧ ∃ ev st',
      step net_AB soup_of repr_none (0, Advance) (GState [] [] [Claiming])
      = Some (ev, st')
      ∧ workers st' !! 0 = Some (Terminated Returned)
      ∧ queue st' = [] ∧ all_stories st' = []
      ∧ (∀ a, step net_AB soup_of repr_none (0, a) st' = None)
      ∧ (∀ a, a ≠ Advance →
              step net_AB soup_of repr_none (0, a) (GState [] [] [Claiming])
              = None).
Proof.
  split; [reflexivity|].
  apply (worker_stop_rule net_AB soup_of repr_none 0
           (GState [] [] [Claiming]) Claiming); [reflexivity|].
  left. split; reflexivity.
Defined.

Lemma scenario_two_pages_witness :
  pool net_AB soup_of repr_none 1 two_pages sched_AB
  = Some (scenario_trace (BASE_URL_format 1) (BASE_URL_format 2)
            story_A story_B (with_comments story_A) (with_comments story_B)
            true,
          GState [] [with_comments story_A; with_comments story_B]
            [Terminated Returned]).
Proof.
  apply (scenario_two_pages net_AB soup_of repr_none
           (BASE_URL_format 1) (BASE_URL_format 2)
           page_AB_html page_empty_html story_A story_B
           (with_comments story_A) (with_comments story_B));
    vm_compute; reflexivity.
Defined.

Lemma printed_totals_witness :
  Qeq_bool 1 0 = false.
Proof.
  apply (printed_totals net_AB soup_of repr_none false sched_AB 1
           (scenario_trace (BASE_URL_format 1) (BASE_URL_format 2)
              story_A story_B (with_comments story_A)
              (with_comments story_B) true)
           [LUsingSingleThread; LRule; LTotal 2; LElapsed 1;
            LSpeed (inject_Z 2 / 1); LRule]).
  vm_compute. reflexivity.
Defined.

(** Two complete runs of [main] that print the same lines: in the first
    nothing fails, in the second eight page fetches fail. *)
Lemma run_full_lines :
  snd <$> main net_full soup_rows repr_none true sched_full 1
  = Some ([LUsingMultithreading; LRule; LTotal 100; LElapsed 1;
           LSpeed (inject_Z 100 / 1); LRule], Returned).
Proof. vm_compute. reflexivity. Qed.

Lemma run_full_errors :
  spec_total_errors ∘ fst
    <$> main net_full soup_rows repr_none true sched_full 1 = Some 0.
Proof. vm_compute. reflexivity. Qed.

Lemma run_big_lines :
  snd <$> main net_big soup_rows repr_none true sched_big 1
  = Some ([LUsingMultithreading; LRule; LTotal 100; LElapsed 1;
           LSpeed (inject_Z 100 / 1); LRule], Returned).
Proof. vm_compute. reflexivity. Qed.

Lemma run_big_errors :
  spec_total_errors ∘ fst
    <$> main net_big soup_rows repr_none true sched_big 1 = Some 8.
Proof. vm_compute. reflexivity. Qed.

(** C8, as stated, fails in its last part: no reading of the printed
    lines gives the error total, since the two runs above print the same
    lines and differ in their errors. *)
Lemma error_total_counterexample :
  ¬ ∃ reported : list line → nat,
      ∀ net BeautifulSoup repr_comments multithreaded sched elapsed tr lines,
        main net BeautifulSoup repr_comments multithreaded sched elapsed
        = Some (tr, (lines, Returned)) →
        reported lines = spec_total_errors tr.
Proof.
  intros [reported H].
  destruct (fmap_Some_1 _ _ _ run_full_lines) as ([tr1 [l1 o1]] & R1 & L1).
  destruct (fmap_Some_1 _ _ _ run_full_errors) as (r1 & R1' & E1).
  destruct (fmap_Some_1 _ _ _ run_big_lines) as ([tr2 [l2 o2]] & R2 & L2).
  destruct (fmap_Some_1 _ _ _ run_big_errors) as (r2 & R2' & E2).
  rewrite R1 in R1'. rewrite R2 in R2'.
  injection R1' as <-. injection R2' as <-.
  injection L1 as <- <-. injection L2 as <- <-.
  apply H in R1. apply H in R2.
  cbn [compose fst] in E1, E2. congruence.
Qed.

(** * Further properties *)

(** ** More on the parsers *)

Lemma join_head sep p rest c :
  head p = Some c → head (join sep (p :: rest)) = Some c.
Proof. destruct p, rest; simpl; naive_solver. Qed.

Lemma join_last sep ps c :
  Forall (λ p, p ≠ []) ps →
  last (join sep ps) = Some c → ∃ p, last ps = Some p ∧ last p = Some c.
Proof.
  induction ps as [|p [|p' rest] IH]; intros Hne Hl; [done| |].
  - exists p. done.
  - apply Forall_cons in Hne as [Hp Hne].
    change (join sep (p :: p' :: rest))
      with (p ++ sep ++ join sep (p' :: rest)) in Hl.
    rewrite !last_app in Hl.
    destruct (last (join sep (p' :: rest))) as [y|] eqn:Hy.
    + destruct IH as (q & Hq & Hc); [done|congruence|]. by exists q.
    + exfalso. apply Forall_cons in Hne as [Hp' _].
      apply last_None in Hy. destruct p', rest; simpl in Hy; try done;
        by destruct (app_eq_nil _ _ Hy).
Qed.

Lemma get_text_strip_stripped sep n : stripped (get_text_strip sep n).
Proof.
  unfold get_text_strip.
  assert (Forall (λ p, p ≠ [] ∧ stripped p)
            (filter (λ s, s ≠ []) (strip <$> all_strings n))) as H.
  { apply Forall_forall. intros p [Hp Hin]%list_elem_of_filter.
    split; [done|]. apply list_elem_of_fmap in Hin as (s & -> & _).
    apply strip_stripped. }
  revert H. generalize (filter (λ s, s ≠ []) (strip <$> all_strings n)).
  intros ps Hps. split; intros c Hc.
  - destruct ps as [|p rest]; [done|].
    apply Forall_cons in Hps as [[Hne [Hh _]] _].
    destruct p as [|a p]; [done|].
    rewrite (join_head sep (a :: p) rest a) in Hc by done.
    injection Hc as <-. by apply Hh.
  - destruct (join_last sep ps c) as (p & Hp & Hl); [|done|].
    { eapply Forall_impl; [done|]. by intros ? [? _]. }
    apply last_Some in Hp as (ps' & ->).
    apply Forall_app in Hps as [_ [[_ [_ Hs]] _]%Forall_cons].
    by apply Hs.
Qed.

Lemma comment_keys_distinct : py "user" ≠ py "text".
Proof. discriminate. Qed.

Lemma comment_of_complete row c : comment_of row c → complete_comment c.
Proof.
  intros (u & t & _ & _ & ->). pose proof comment_keys_distinct.
  split.
  - unfold comment_dict. rewrite !dom_insert_L, dom_empty_L. set_solver.
  - exists (strip (text u)), (get_text_strip (py " ") t). unfold comment_dict.
    split_and!; auto using strip_stripped, get_text_strip_stripped.
Qed.

Lemma parse_comments_loop_spec rows acc :
  ∃ new, parse_comments_loop rows acc = acc ++ new ∧
         Forall2 comment_of (filter (λ row, comment_row row = true) rows) new.
Proof.
  revert acc. induction rows as [|row rest IH]; intros acc; simpl.
  - exists []. rewrite app_nil_r. split; [done|constructor].
  - destruct (select_one sel_hnuser row) as [u|] eqn:Hu.
    2:{ rewrite filter_cons_False; [by apply IH|].
        unfold comment_row. rewrite Hu.
        by rewrite bool_decide_eq_false_2 by (by intros [? ?]). }
    destruct (select_one sel_commtext row) as [t|] eqn:Ht.
    2:{ rewrite filter_cons_False; [by apply IH|].
        unfold comment_row. rewrite Ht, andb_comm.
        by rewrite bool_decide_eq_false_2 by (by intros [? ?]). }
    destruct (IH (acc ++ [comment_dict (strip (text u))
                            (get_text_strip (py " ") t)]))
      as (new & -> & Hnew).
    rewrite filter_cons_True.
    2:{ unfold comment_row. by rewrite Hu, Ht. }
    eexists (_ :: new). rewrite <- app_assoc. split; [done|].
    constructor; [|done]. by exists u, t.
Qed.

Lemma parse_comments_spec (BeautifulSoup : pystr → node) (html : pystr) :
  Forall2 comment_of
    (filter (λ row, comment_row row = true)
       (select sel_tr_comtr (BeautifulSoup html)))
    (parse_comments BeautifulSoup html).
Proof.
  unfold parse_comments. simpl.
  destruct (parse_comments_loop_spec
              (select sel_tr_comtr (BeautifulSoup html)) [])
    as (new & -> & Hnew).
  done.
Qed.

Lemma parse_comments_complete (BeautifulSoup : pystr → node) (html : pystr) :
  Forall complete_comment (parse_comments BeautifulSoup html).
Proof.
  pose proof (parse_comments_spec BeautifulSoup html) as H.
  revert H. generalize (parse_comments BeautifulSoup html).
  generalize (filter (λ row, comment_row row = true)
                (select sel_tr_comtr (BeautifulSoup html))).
  intros rows cs H.
  induction H; constructor; eauto using comment_of_complete.
Qed.

(** X1: [parse_comments] returns for every body, without raising: its
    comments are, in order, those of the [tr.comtr] rows that have both a
    [.hnuser] and a [.commtext] element; each is a dict with exactly the
    keys [user] and [text], both without leading or trailing whitespace. *)
Theorem parse_comments_records (BeautifulSoup : pystr → node) (html : pystr) :
  Forall2 comment_of
    (filter (λ row, comment_row row = true)
       (select sel_tr_comtr (BeautifulSoup html)))
    (parse_comments BeautifulSoup html)
  ∧ Forall complete_comment (parse_comments BeautifulSoup html).
Proof.
  split; [apply parse_comments_spec|apply parse_comments_complete].
Qed.

Lemma not_story_item_no_anchor item rest :
  story_item item = false →
  Exists anchor_without_href (item :: rest)
  ↔ Exists anchor_without_href rest.
Proof.
  intros H. rewrite Exists_cons. unfold anchor_without_href at 1.
  rewrite H. split; [by intros [[? _]|?]|by right].
Qed.

Lemma parse_stories_loop_raise items acc e :
  parse_stories_loop items acc = Raise e ↔
  e = KeyError (py "href") ∧ Exists anchor_without_href items.
Proof.
  revert acc. induction items as [|item rest IH]; intros acc; simpl.
  - split; [done|]. intros [_ H]. by apply Exists_nil in H.
  - destruct (select_one sel_titleline_a item) as [t|] eqn:Ht.
    2:{ rewrite IH, not_story_item_no_anchor; [done|].
        unfold story_item. rewrite Ht.
        by rewrite bool_decide_eq_false_2 by (by intros [? ?]). }
    destruct (tag_attrs item !! py "id") as [[|c i]|] eqn:Hid.
    1,3: rewrite IH, not_story_item_no_anchor; [done|];
         unfold story_item; rewrite Hid; simpl; by rewrite andb_false_r.
    destruct (tag_attrs t !! py "href") as [href|] eqn:Hh.
    + rewrite IH, Exists_cons. unfold anchor_without_href at 2.
      rewrite Ht. split; [intros [-> H]; split; [done|by right]|].
      intros [-> [(_ & t' & [= <-] & Hn)|H]]; [congruence|done].
    + rewrite Exists_cons. split.
      * intros [= <-]. split; [done|]. left. split.
        -- unfold story_item. by rewrite Ht, Hid.
        -- by exists t.
      * by intros [-> _].
Qed.

(** X2: [parse_stories] raises exactly when some item with a title anchor
    and a non-empty [id] has an anchor without [href]; the exception is
    then [KeyError('href')], and no record of the page is returned. *)
Theorem parse_stories_raises (BeautifulSoup : pystr → node) (html : pystr)
    (e : exn) :
  parse_stories BeautifulSoup html = Raise e ↔
  e = KeyError (py "href")
  ∧ Exists anchor_without_href (select sel_athing (BeautifulSoup html)).
Proof. apply parse_stories_loop_raise. Qed.

(** ** More on the secondary fetch *)

Section SecondaryFacts.
Variable net : pystr → result pystr.
Variable BeautifulSoup : pystr → node.
Variable repr_comments : list (gmap pystr pystr) → pystr.

Local Abbreviation fetch_story_with_comments :=
  (fetch_story_with_comments net BeautifulSoup repr_comments).

Lemma fetch_story_inv s s' :
  fetch_story_with_comments s = Ok s' →
  ∃ v html,
    s !! py "id" = Some v ∧
    fetch net (ITEM_URL_format repr_comments v) = Ok html ∧
    s' = <[py "comments" := VComments (parse_comments BeautifulSoup html)]> s.
Proof.
  unfold fetch_story_with_comments. intros H.
  destruct (s !! py "id") as [v|] eqn:Hv; [|done].
  destruct (fetch net _) as [html|] eqn:Hf; [|done].
  injection H as <-. by exists v, html.
Qed.

Lemma enriched_complete s s' :
  complete_record s → fetch_story_with_comments s = Ok s' →
  complete_story s'.
Proof.
  intros [Hdom (i & t & l & Hi & Hne & Ht & Hst & Hl & Hsl)]
    (v & html & Hv & Hf & ->)%fetch_story_inv.
  split.
  - rewrite dom_insert_L, Hdom. unfold story_keys. set_solver.
  - exists i, t, l, (parse_comments BeautifulSoup html).
    rewrite !lookup_insert_ne by discriminate. rewrite lookup_insert_eq.
    split_and!; auto using parse_comments_complete.
Qed.

(** X3: when [fetch_story_with_comments] succeeds, the story keeps every
    other key with its value and gains [comments], a list of complete
    comments; a record of [parse_stories] ends with exactly the keys [id],
    [title], [link] and [comments]; and fetching the comments of the
    result again changes nothing. *)
Theorem fetch_story_keeps_record s s' :
  fetch_story_with_comments s = Ok s' →
  (∀ k, k ≠ py "comments" → s' !! k = s !! k)
  ∧ (∃ c, s' !! py "comments" = Some (VComments c)
          ∧ Forall complete_comment c)
  ∧ (complete_record s → dom s' = story_keys)
  ∧ fetch_story_with_comments s' = Ok s'.
Proof.
  intros (v & html & Hv & Hf & ->)%fetch_story_inv. split_and!.
  - intros k Hk. by rewrite lookup_insert_ne.
  - eexists. rewrite lookup_insert_eq. split; [done|].
    apply parse_comments_complete.
  - intros [Hdom _]. rewrite dom_insert_L, Hdom. unfold story_keys.
    set_solver.
  - unfold fetch_story_with_comments.
    rewrite lookup_insert_ne by discriminate. rewrite Hv, Hf.
    by rewrite insert_insert_eq.
Qed.
End SecondaryFacts.

Lemma fetch_story_keeps_record_witness :
  dom (with_comments story_A) = story_keys.
Proof.
  apply (fetch_story_keeps_record net_AB soup_of repr_none story_A
           (with_comments story_A)).
  - vm_compute. reflexivity.
  - apply story_dict_complete; [discriminate|split; by intros ? [= <-]..].
Defined.

(** ** More on the pool *)

(** *** The page behind a batch *)

Lemma cur_page_snoc w tr ev :
  cur_page w (tr ++ [ev]) = cur_page_step w (cur_page w tr) ev.
Proof. unfold cur_page. by rewrite foldl_app. Qed.

Lemma cur_page_other w tr ev :
  ev_worker ev ≠ w → cur_page w (tr ++ [ev]) = cur_page w tr.
Proof.
  intros H. rewrite cur_page_snoc. destruct ev; simpl in *; try done.
  by rewrite bool_decide_eq_false_2.
Qed.

Lemma sum_list_append (l1 l2 : list nat) :
  sum_list (l1 ++ l2) = sum_list l1 + sum_list l2.
Proof. induction l1 as [|x l1 IH]; simpl; lia. Qed.

Lemma taken_app tr1 tr2 : taken (tr1 ++ tr2) = taken tr1 ++ taken tr2.
Proof. unfold taken. by rewrite omap_app. Qed.

Lemma published_app tr1 tr2 :
  published (tr1 ++ tr2) = published tr1 ++ published tr2.
Proof. unfold published. by rewrite omap_app, concat_app. Qed.

Lemma published_elem s tr :
  s ∈ published tr →
  ∃ tr1 w stories tr2, tr = tr1 ++ EvPublish w stories :: tr2 ∧ s ∈ stories.
Proof.
  induction tr as [|ev tr IH] using rev_ind; [by intros ?%not_elem_of_nil|].
  rewrite published_snoc. intros [Hin|Hin]%elem_of_app.
  - destruct (IH Hin) as (tr1 & w & ss & tr2 & -> & Hs).
    exists tr1, w, ss, (tr2 ++ [ev]). by rewrite <- app_assoc.
  - destruct ev; try by apply not_elem_of_nil in Hin.
    by exists tr, w, stories, [].
Qed.

Lemma cur_page_taken w tr page : cur_page w tr = Some page → page ∈ taken tr.
Proof.
  induction tr as [|ev tr IH] using rev_ind; [done|].
  rewrite cur_page_snoc, taken_snoc. intros H.
  destruct ev; simpl in *; rewrite ?app_nil_r; auto.
  case_bool_decide; simplify_eq; set_solver.
Qed.

Section PoolFacts.
Variable net : pystr → result pystr.
Variable BeautifulSoup : pystr → node.
Variable repr_comments : list (gmap pystr pystr) → pystr.

Local Abbreviation worker_step := (worker_step net BeautifulSoup repr_comments).
Local Abbreviation step := (step net BeautifulSoup repr_comments).
Local Abbreviation run := (run net BeautifulSoup repr_comments).
Local Abbreviation pool := (pool net BeautifulSoup repr_comments).
Local Abbreviation enrich := (enrich net BeautifulSoup repr_comments).
Local Abbreviation scrape_page := (scrape_page net BeautifulSoup repr_comments).
Local Abbreviation seq_scrape := (seq_scrape net BeautifulSoup repr_comments).
Local Abbreviation remaining := (remaining net BeautifulSoup repr_comments).
Local Abbreviation good_page := (good_page net BeautifulSoup repr_comments).
Local Abbreviation happy_ok := (happy_ok net BeautifulSoup repr_comments).
Local Abbreviation hold := (hold net BeautifulSoup).
Local Abbreviation exact_ok := (exact_ok net BeautifulSoup repr_comments).
Local Abbreviation task_exact := (task_exact net BeautifulSoup repr_comments).
Local Abbreviation page_tasks := (page_tasks net BeautifulSoup).

Lemma mapM_enrich_done sp stories tasks :
  length stories = length sp → length tasks = length sp →
  (∀ i s0 s t,
      sp !! i = Some s0 → stories !! i = Some s → tasks !! i = Some t →
      t = Done ∧ task_exact s0 s t) →
  mapM enrich sp = Some stories.
Proof.
  intros Hl1 Hl2 H. apply mapM_Some, Forall2_same_length_lookup_2; [done|].
  intros i s0 s Hs0 Hs.
  destruct (lookup_lt_is_Some_2 tasks i) as [t Ht].
  { rewrite Hl2. by eapply lookup_lt_Some. }
  destruct (H i s0 s t Hs0 Hs Ht) as [-> He]. simpl in He.
  unfold enrich. by rewrite He.
Qed.

Lemma mapM_enrich_failed sp i s0 e :
  sp !! i = Some s0 →
  fetch_story_with_comments net BeautifulSoup repr_comments s0 = Raise e →
  mapM enrich sp = None.
Proof.
  intros Hi He. destruct (mapM enrich sp) as [k|] eqn:Hm; [|done].
  apply mapM_Some in Hm.
  destruct (Forall2_lookup_l _ _ _ _ _ Hm Hi) as (s & _ & Hs).
  unfold enrich in Hs. by rewrite He in Hs.
Qed.

Lemma worker_step_exact w a q ws ev q' app ws' cur sp :
  worker_step w a q ws = Some (ev, q', app, ws') →
  page_ok sp ws → exact_ok cur sp ws →
  exact_ok (cur_page_step w cur ev) (spawned_step w sp ev) ws'.
Proof.
  intros H Hpage Hok.
  destruct ws as [|page|stories tasks errors|stories|o], a; simpl in H;
    try done.
  - (* queue.get *)
    destruct q; simplify_eq; simpl; [done|].
    by rewrite bool_decide_eq_true_2.
  - (* the page arrives *)
    simpl in Hok. subst cur.
    destruct (fetch net page) as [html|e] eqn:Hf; simplify_eq; [|done].
    destruct (parse_stories BeautifulSoup html) as [[|s l]|e] eqn:Hp;
      simplify_eq; simpl; try done.
    rewrite bool_decide_eq_true_2 by done. split_and!.
    + by exists page, html.
    + intros i s0 s1 t Hs0 Hs1 Ht.
      change (Pending :: list_fmap _ _ ?f ?l) with (f <$> (s :: l)) in Ht.
      rewrite list_lookup_fmap, Hs0 in Ht. simplify_eq/=. done.
    + done.
  - (* the group is left *)
    destruct Hpage as (Hl1 & Hl2 & Hpage).
    destruct Hok as ((page & html & -> & Hf & Hp & Hne) & Hex & Herr).
    destruct (pending tasks) eqn:Hpend; [|done].
    destruct errors; simplify_eq; simpl; [|done].
    exists page. split_and!; [done| |].
    + unfold scrape_page. rewrite Hf, Hp.
      apply mapM_enrich_done with tasks; [done..|].
      intros i s0 s t Hs0 Hs Ht. split; [|by eapply Hex].
      specialize (Hpage i s0 s t Hs0 Hs Ht).
      pose proof (pending_zero _ _ _ Hpend Ht). by destruct t.
    + intros ->. by destruct sp.
  - (* a task ends *)
    destruct Hpage as (Hl1 & Hl2 & Hpage).
    destruct Hok as (Hcur & Hex & Herr).
    destruct (tasks !! i) as [[| | |]|] eqn:Hti; try done.
    destruct (stories !! i) as [si|] eqn:Hsi; [|done].
    pose proof (lookup_lt_Some _ _ _ Hti) as Hlt.
    destruct (lookup_lt_is_Some_2 sp i) as [s0i Hs0i]; [lia|].
    pose proof (Hex i s0i si Pending Hs0i Hsi Hti) as Hpi. simpl in Hpi.
    subst si.
    destruct (fetch_story_with_comments _ _ _ s0i) as [s'|e] eqn:Hfs;
      simplify_eq; simpl; split_and!; try done.
    + intros j s0 s t Hs0 Hs Ht. destruct (decide (j = i)) as [->|Hne].
      * rewrite list_lookup_insert_eq in Hs by lia.
        rewrite list_lookup_insert_eq in Ht by lia. by simplify_eq.
      * rewrite list_lookup_insert_ne in Hs by done.
        rewrite list_lookup_insert_ne in Ht by done. by eapply Hex.
    + intros Hne. destruct (Herr Hne) as (j & e & Hj).
      exists j, e. rewrite list_lookup_insert_ne; [done|]. congruence.
    + intros j s0 s t Hs0 Hs Ht. destruct (decide (j = i)) as [->|Hne].
      * rewrite list_lookup_insert_eq in Ht by lia. by simplify_eq.
      * rewrite list_lookup_insert_ne in Ht by done. by eapply Hex.
    + intros _. exists i, e. by rewrite list_lookup_insert_eq by lia.
  - (* the group cancels *)
    destruct Hok as (Hcur & Hex & Herr).
    destruct errors as [|e0 errors]; [done|].
    destruct (pending tasks); simplify_eq. simpl. split_and!; [done| |].
    + intros j s0 s t Hs0 Hs Ht. rewrite list_lookup_fmap in Ht.
      destruct (tasks !! j) as [t0|] eqn:Ht0; simplify_eq/=.
      specialize (Hex j s0 s t0 Hs0 Hs Ht0). by destruct t0.
    + intros _. destruct Herr as (j & e & Hj); [done|].
      exists j, e. by rewrite list_lookup_fmap, Hj.
  - by simplify_eq.
Qed.

Lemma exact_invariant sched n urls tr st :
  run sched ([], pool_init n urls) = Some (tr, st) →
  (∀ tr1 w stories tr2,
      tr = tr1 ++ EvPublish w stories :: tr2 →
      ∃ page, cur_page w tr1 = Some page
              ∧ scrape_page page = Some stories ∧ stories ≠ [])
  ∧ (∀ w ws, workers st !! w = Some ws →
             page_ok (spawned w tr) ws
             ∧ exact_ok (cur_page w tr) (spawned w tr) ws).
Proof.
  intros Hrun.
  apply (run_invariant net BeautifulSoup repr_comments
           (λ tr st,
              (∀ tr1 w stories tr2,
                  tr = tr1 ++ EvPublish w stories :: tr2 →
                  ∃ page, cur_page w tr1 = Some page
                          ∧ scrape_page page = Some stories ∧ stories ≠ [])
              ∧ (∀ w ws, workers st !! w = Some ws →
                         page_ok (spawned w tr) ws
                         ∧ exact_ok (cur_page w tr) (spawned w tr) ws)))
    in Hrun; [done| |].
  - clear. intros [w0 a] tr st ev st' [HT HJ] Hstep.
    apply step_inv in Hstep as (ws & q & app & ws' & Hws & Hw & ->).
    simpl in *. destruct (HJ _ _ Hws) as [Hpage Hex]. split.
    + intros tr1 w ss tr2 [(-> & -> & <-)|(tr2' & -> & ->)]%snoc_split.
      * pose proof (wstep_worker _ _ _ _ _ _ _ _ _ _ _ Hw) as Hev.
        simpl in Hev. subst w.
        destruct ws, a; simpl in Hw; repeat case_match; simplify_eq.
        simpl in Hex. done.
      * by eapply HT.
    + intros w ws1 Hws1. destruct (decide (w = w0)) as [->|Hne].
      * assert (w0 < length (workers st)) by by eapply lookup_lt_Some.
        rewrite list_lookup_insert_eq in Hws1 by done. simplify_eq.
        rewrite spawned_snoc, cur_page_snoc. split.
        -- eapply wstep_page_ok; eauto.
        -- eapply worker_step_exact; eauto.
      * rewrite list_lookup_insert_ne in Hws1 by done.
        apply wstep_worker in Hw.
        rewrite spawned_other, cur_page_other by congruence. by apply HJ.
  - simpl. split.
    + intros tr1 w ss tr2 H. by destruct tr1.
    + intros w ws [-> _]%lookup_replicate. done.
Qed.

(** X4: every batch appended to [all_stories] is the complete result of
    one page of the queue, the page its worker took last: the stories
    [parse_stories] finds in its body, in order, each with the comments of
    its own comment page; and the batch is not empty. *)
Theorem published_batch_is_page sched n urls tr st tr1 w stories tr2 :
  run sched ([], pool_init n urls) = Some (tr, st) →
  tr = tr1 ++ EvPublish w stories :: tr2 →
  ∃ page, cur_page w tr1 = Some page ∧ page ∈ urls
          ∧ scrape_page page = Some stories ∧ stories ≠ [].
Proof.
  intros Hrun ->.
  pose proof (queue_sink_invariant _ _ _ _ _ _ _ _ Hrun) as [Hq _].
  apply exact_invariant in Hrun as [HT _].
  destruct (HT _ _ _ _ eq_refl) as (page & Hcur & Hs & Hne).
  exists page. split_and!; try done.
  apply cur_page_taken in Hcur. rewrite <- Hq, taken_app.
  set_solver.
Qed.

(** X5: every story in [all_stories] is complete: exactly the keys [id],
    [title], [link] and [comments], a non-empty [id], a stripped [title]
    and [link], and comments that are complete themselves. No story gets
    there without its comments. *)
Theorem result_list_records sched n urls tr st s :
  run sched ([], pool_init n urls) = Some (tr, st) →
  s ∈ all_stories st → complete_story s.
Proof.
  intros Hrun Hs.
  pose proof (queue_sink_invariant _ _ _ _ _ _ _ _ Hrun) as [_ Hsink].
  rewrite Hsink in Hs.
  apply published_elem in Hs as (tr1 & w & ss & tr2 & -> & Hs).
  apply exact_invariant in Hrun as [HT _].
  destruct (HT _ _ _ _ eq_refl) as (page & _ & Hpage & _).
  unfold scrape_page in Hpage.
  destruct (fetch net page) as [html|]; [|done].
  destruct (parse_stories BeautifulSoup html) as [parsed|] eqn:Hp; [|done].
  apply mapM_Some in Hpage.
  apply list_elem_of_lookup in Hs as [i Hi].
  destruct (Forall2_lookup_r _ _ _ _ _ Hpage Hi) as (s0 & Hs0 & He).
  unfold enrich in He.
  destruct (fetch_story_with_comments _ _ _ s0) as [s'|] eqn:Hf;
    simplify_eq.
  eapply enriched_complete; [|done].
  unfold parse_stories in Hp.
  apply parse_stories_loop_spec in Hp as (new & -> & Hnew). simpl in Hs0.
  destruct (Forall2_lookup_r _ _ _ _ _ Hnew Hs0) as (item & _ & Hr).
  by eapply record_of_complete.
Qed.

(** *** One worker *)

Lemma seq_scrape_none page q :
  scrape_page page = None → seq_scrape (page :: q) = [].
Proof. simpl. by intros ->. Qed.

Lemma worker_step_remaining a q ws ev q' app ws' cur sp :
  worker_step 0 a q ws = Some (ev, q', app, ws') →
  page_ok sp ws → exact_ok cur sp ws →
  app ++ remaining (cur_page_step 0 cur ev) q' ws' = remaining cur q ws.
Proof.
  intros H Hpage Hok.
  destruct ws as [|page|stories tasks errors|stories|o], a; simpl in H;
    try done.
  - destruct q; by simplify_eq.
  - simpl in Hok. subst cur.
    unfold remaining at 2. simpl seq_scrape. unfold scrape_page.
    destruct (fetch net page) as [html|e] eqn:Hf; simplify_eq; [|done].
    destruct (parse_stories BeautifulSoup html) as [[|s l]|e] eqn:Hp;
      simplify_eq; simpl; try done.
    unfold scrape_page. by rewrite Hf, Hp.
  - destruct Hpage as (Hl1 & Hl2 & Hpage).
    destruct Hok as ((page & html & -> & Hf & Hp & Hne) & Hex & Herr).
    destruct (pending tasks) eqn:Hpend; [|done].
    destruct errors as [|e0 errors]; simplify_eq.
    + assert (exact_ok (Some page) sp (Publishing stories)) as Hpub.
      { apply (worker_step_exact 0 Advance q' (Joining stories tasks [])
                 (EvJoined 0) q' []); simpl; [by rewrite Hpend|done|].
        split_and!; [by exists page, html|done..]. }
      destruct Hpub as (page' & [= <-] & Hs & Hn).
      simpl. rewrite Hs. by destruct stories.
    + destruct Herr as (i & e & Hi); [done|].
      destruct (lookup_lt_is_Some_2 sp i) as [s0 Hs0].
      { rewrite <- Hl2. by eapply lookup_lt_Some. }
      destruct (lookup_lt_is_Some_2 stories i) as [s Hs].
      { rewrite Hl1. by eapply lookup_lt_Some. }
      specialize (Hex i s0 s (Failed e) Hs0 Hs Hi). simpl in Hex.
      simpl. unfold scrape_page. rewrite Hf, Hp.
      by rewrite (mapM_enrich_failed _ _ _ _ Hs0 Hex).
  - repeat case_match; by simplify_eq.
  - repeat case_match; by simplify_eq.
  - by simplify_eq.
Qed.

(** X6: with one worker, the result list does not depend on the order in
    which the tasks of a page end: every complete run leaves in
    [all_stories] what the loop gives when read page by page, that is the
    stories of the pages before the first page that fails or is empty. *)
Theorem single_worker_result urls sched tr st :
  pool 1 urls sched = Some (tr, st) → all_stories st = seq_scrape urls.
Proof.
  unfold pool.
  destruct (run _ _) as [[tr' st']|] eqn:Hrun; [|done].
  destruct (all_terminated st') eqn:Hall; [|done]. intros [= -> ->].
  pose proof (exact_invariant _ _ _ _ _ Hrun) as [_ HJ].
  assert (∀ ws, workers st !! 0 = Some ws →
                all_stories st ++ remaining (cur_page 0 tr) (queue st) ws
                = seq_scrape urls) as Hrem.
  { clear HJ Hall.
    apply (run_invariant net BeautifulSoup repr_comments
             (λ tr st,
                (∀ w ws, workers st !! w = Some ws →
                         page_ok (spawned w tr) ws
                         ∧ exact_ok (cur_page w tr) (spawned w tr) ws)
                ∧ length (workers st) = 1
                ∧ ∀ ws, workers st !! 0 = Some ws →
                        all_stories st
                        ++ remaining (cur_page 0 tr) (queue st) ws
                        = seq_scrape urls)) in Hrun; [by apply Hrun| |].
    - clear. intros [w0 a] tr st ev st' (HJ & Hlen & HR) Hstep.
      assert (run [(w0, a)] (tr, st) = Some (tr ++ [ev], st')) as Hone.
      { simpl. by rewrite Hstep. }
      apply step_inv in Hstep as (ws & q & app & ws' & Hws & Hw & ->).
      simpl in *.
      assert (w0 = 0) as ->.
      { apply lookup_lt_Some in Hws. lia. }
      destruct (HJ _ _ Hws) as [Hpage Hex].
      assert (∀ w ws1, <[0:=ws']> (workers st) !! w = Some ws1 →
                page_ok (spawned w (tr ++ [ev])) ws1
                ∧ exact_ok (cur_page w (tr ++ [ev]))
                    (spawned w (tr ++ [ev])) ws1) as HJ'.
      { intros w ws1 Hws1. destruct (decide (w = 0)) as [->|Hne].
        - rewrite list_lookup_insert_eq in Hws1 by lia. simplify_eq.
          rewrite spawned_snoc, cur_page_snoc. split.
          + eapply wstep_page_ok; eauto.
          + eapply worker_step_exact; eauto.
        - apply lookup_lt_Some in Hws1. rewrite length_insert in Hws1.
          lia. }
      split_and!; [done|by rewrite length_insert|].
      intros ws1 Hws1. rewrite list_lookup_insert_eq in Hws1 by lia.
      simplify_eq. rewrite cur_page_snoc, <- app_assoc.
      erewrite worker_step_remaining; eauto.
    - simpl. split_and!; [|done|].
      + intros [|w] ws Hw; by simplify_eq/=.
      + by intros ws [= <-]. }
  destruct (workers st) as [|ws l] eqn:Hws.
  { apply (f_equal length) in Hws.
    apply (run_invariant net BeautifulSoup repr_comments
             (λ _ st, length (workers st) = 1)) in Hrun; simpl in *;
      [congruence| |done].
    intros c tr0 st0 ev st1 Hl
      (? & ? & ? & ? & ? & ? & ->)%step_inv.
    simpl. by rewrite length_insert. }
  specialize (Hrem ws eq_refl). unfold all_terminated in Hall.
  rewrite Hws in Hall. simpl in Hall.
  destruct ws; try done. simpl in Hrem. by rewrite app_nil_r in Hrem.
Qed.

(** *** Counting stories and pages *)

Lemma worker_step_hold w a q ws ev q' app ws' :
  worker_step w a q ws = Some (ev, q', app, ws') →
  length app + sum_list (page_tasks <$> q') + hold ws'
  ≤ sum_list (page_tasks <$> q) + hold ws.
Proof.
  intros H.
  destruct ws as [|page|stories tasks errors|stories|o], a; simpl in H;
    try done.
  - destruct q as [|page q]; simplify_eq; [simpl; lia|].
    rewrite fmap_cons. simpl. lia.
  - unfold hold at 2. unfold page_tasks at 3.
    destruct (fetch net page) as [html|e]; [|simplify_eq; simpl; lia].
    destruct (parse_stories BeautifulSoup html) as [[|s l]|e];
      simplify_eq; simpl; lia.
  - repeat case_match; simplify_eq; simpl; lia.
  - repeat case_match; simplify_eq; simpl; rewrite ?length_insert; lia.
  - repeat case_match; simplify_eq; simpl; lia.
  - simplify_eq. simpl. lia.
Qed.

(** X7: the result list never holds more stories than the pages taken from
    the queue have, and these never more than all the pages enqueued. *)
Theorem result_list_bound sched n urls tr st :
  run sched ([], pool_init n urls) = Some (tr, st) →
  length (all_stories st) ≤ sum_list (page_tasks <$> taken tr)
  ∧ sum_list (page_tasks <$> taken tr) ≤ sum_list (page_tasks <$> urls).
Proof.
  intros Hrun.
  pose proof (queue_sink_invariant _ _ _ _ _ _ _ _ Hrun) as [Hq _].
  apply (run_invariant net BeautifulSoup repr_comments
           (λ _ st,
              length (all_stories st) + sum_list (page_tasks <$> queue st)
              + sum_list (hold <$> workers st)
              ≤ sum_list (page_tasks <$> urls))) in Hrun.
  - simpl in Hrun. rewrite <- Hq in *.
    rewrite fmap_app, sum_list_append in *. lia.
  - clear. intros c tr st ev st' Hle
      (ws & q & app & ws' & Hws & Hw & ->)%step_inv.
    apply worker_step_hold in Hw. cbn [queue workers all_stories].
    pose proof (sum_list_insert hold _ _ _ ws' Hws).
    rewrite length_app. lia.
  - simpl. rewrite fmap_replicate. simpl. rewrite sum_list_replicate. lia.
Qed.

Lemma worker_step_credit w a q ws ev q' app ws' :
  worker_step w a q ws = Some (ev, q', app, ws') →
  length (taken [ev]) + credit ws' ≤ publications [ev] + credit ws.
Proof.
  intros H. destruct ws, a; simpl in H;
    repeat case_match; simplify_eq; simpl; lia.
Qed.

Lemma publications_snoc tr ev :
  publications (tr ++ [ev]) = publications tr + publications [ev].
Proof. unfold publications. by rewrite filter_app, length_app. Qed.

(** X8: each worker loses at most one page: the pages taken from the
    queue are at most the batches published plus the number of workers. *)
Theorem pages_lost_bound sched n urls tr st :
  run sched ([], pool_init n urls) = Some (tr, st) →
  length (taken tr) ≤ publications tr + n.
Proof.
  intros Hrun.
  apply (run_invariant net BeautifulSoup repr_comments
           (λ tr st,
              length (taken tr) + sum_list (credit <$> workers st)
              ≤ publications tr + n)) in Hrun.
  - simpl in Hrun. lia.
  - clear. intros c tr st ev st' Hle
      (ws & q & app & ws' & Hws & Hw & ->)%step_inv.
    apply worker_step_credit in Hw. cbn [queue workers all_stories].
    pose proof (sum_list_insert credit _ _ _ ws' Hws).
    rewrite taken_app, length_app, publications_snoc. lia.
  - simpl. rewrite fmap_replicate. simpl. rewrite sum_list_replicate.
    unfold publications. simpl. lia.
Qed.

(** *** When every page is good *)

Lemma good_page_inv page :
  good_page page →
  ∃ html sp stories,
    fetch net page = Ok html ∧ parse_stories BeautifulSoup html = Ok sp
    ∧ mapM enrich sp = Some stories ∧ sp ≠ []
    ∧ page_tasks page = length sp.
Proof.
  intros (stories & Hs & Hne). unfold scrape_page in Hs.
  unfold page_tasks.
  destruct (fetch net page) as [html|] eqn:Hf; [|done].
  destruct (parse_stories BeautifulSoup html) as [sp|] eqn:Hp; [|done].
  exists html, sp, stories. split_and!; try done.
  intros ->. by apply mapM_Some, Forall2_nil_inv_l in Hs.
Qed.

Lemma worker_step_happy w a q ws ev q' app ws' :
  worker_step w a q ws = Some (ev, q', app, ws') →
  Forall good_page q → happy_ok q ws →
  happy_ok q' ws' ∧ Forall good_page q' ∧ is_failure ev = false
  ∧ length app + sum_list (page_tasks <$> q') + hold ws'
    = sum_list (page_tasks <$> q) + hold ws.
Proof.
  intros H Hq Hok.
  destruct ws as [|page|stories tasks errors|stories|o], a; simpl in H;
    try done.
  - destruct q as [|page q]; simplify_eq; [done|].
    apply Forall_cons in Hq as [Hp Hq]. rewrite fmap_cons. simpl.
    split_and!; try done. lia.
  - simpl in Hok.
    destruct (good_page_inv _ Hok) as (html & sp & ss & Hf & Hp & Hm & Hne
                                        & Hpt).
    unfold hold at 2. rewrite Hpt. rewrite Hf, Hp in H.
    destruct sp as [|s l]; [done|]. simplify_eq. simpl.
    change (list_fmap _ _ ?f ?l) with (f <$> l).
    rewrite length_fmap. split_and!; try done.
    intros i s0 t Hs0 Ht. apply mapM_Some in Hm.
    destruct (Forall2_lookup_l _ _ _ _ _ Hm Hs0) as (s' & _ & Hs').
    destruct i as [|i]; simplify_eq/=; [by rewrite Hs'|].
    rewrite list_lookup_fmap, Hs0 in Ht. simplify_eq/=. by rewrite Hs'.
  - destruct Hok as (-> & Hl & Hok).
    destruct (pending tasks); simplify_eq. simpl. split_and!; done.
  - destruct Hok as (-> & Hl & Hok).
    destruct (tasks !! i) as [[| | |]|] eqn:Hti; try done.
    destruct (stories !! i) as [si|] eqn:Hsi; [|done].
    pose proof (lookup_lt_Some _ _ _ Hti) as Hlt.
    pose proof (Hok i si Pending Hsi Hti) as [s' Hs']. simpl in Hs'.
    unfold enrich in Hs'.
    destruct (fetch_story_with_comments _ _ _ si) as [s1|e] eqn:Hfs;
      simplify_eq. simpl. rewrite !length_insert.
    split_and!; try done.
    intros j s t Hs Ht. destruct (decide (j = i)) as [->|Hne].
    + rewrite list_lookup_insert_eq in Ht by lia. by simplify_eq.
    + rewrite list_lookup_insert_ne in Hs by done.
      rewrite list_lookup_insert_ne in Ht by done. by eapply Hok.
  - by destruct Hok as (-> & _).
  - simplify_eq. simpl. split_and!; try done. lia.
Qed.

Lemma failures_snoc tr ev :
  failures (tr ++ [ev]) = failures tr + (if is_failure ev then 1 else 0).
Proof.
  unfold failures. rewrite filter_app, length_app. f_equal.
  rewrite filter_cons, filter_nil. by destruct (is_failure ev).
Qed.

(** X9: when every page of the queue loads, has stories, and all its
    comment pages load, every complete run of at least one worker takes
    every page, nothing fails, every worker returns, and the result list
    holds as many stories as the pages have together. *)
Theorem all_pages_scraped n urls sched tr st :
  1 ≤ n → Forall good_page urls →
  pool n urls sched = Some (tr, st) →
  queue st = [] ∧ taken tr = urls ∧ failures tr = 0
  ∧ Forall (λ ws, ws = Terminated Returned) (workers st)
  ∧ length (all_stories st) = sum_list (page_tasks <$> urls).
Proof.
  intros Hn Hgood. unfold pool.
  destruct (run _ _) as [[tr' st']|] eqn:Hrun; [|done].
  destruct (all_terminated st') eqn:Hall; [|done]. intros [= -> ->].
  pose proof (queue_sink_invariant _ _ _ _ _ _ _ _ Hrun) as [Hq _].
  apply (run_invariant net BeautifulSoup repr_comments
           (λ tr st,
              Forall good_page (queue st)
              ∧ (∀ w ws, workers st !! w = Some ws → happy_ok (queue st) ws)
              ∧ failures tr = 0
              ∧ length (workers st) = n
              ∧ length (all_stories st)
                + sum_list (page_tasks <$> queue st)
                + sum_list (hold <$> workers st)
                = sum_list (page_tasks <$> urls))) in Hrun.
  - destruct Hrun as (_ & Hhappy & Hfail & Hlen & Hsum). simpl in *.
    assert (Forall (λ ws, ws = Terminated Returned) (workers st)) as Hret.
    { apply Forall_lookup. intros w ws Hws.
      unfold all_terminated in Hall. rewrite forallb_forall in Hall.
      assert (is_terminated ws = true) as Ht.
      { apply Hall, list_elem_of_In. by eapply list_elem_of_lookup_2. }
      destruct ws; try done. by destruct (Hhappy _ _ Hws) as [-> _]. }
    assert (queue st = []) as Hqe.
    { destruct (lookup_lt_is_Some_2 (workers st) 0) as [ws Hws]; [lia|].
      pose proof (Forall_lookup_1 _ _ _ _ Hret Hws) as ->.
      by destruct (Hhappy _ _ Hws). }
    rewrite Hqe, app_nil_r in Hq. split_and!; try done.
    rewrite Hqe in Hsum. simpl in Hsum.
    assert (sum_list (hold <$> workers st) = 0) as Hz; [|lia].
    clear -Hret. induction Hret as [|ws l -> _ IH]; [done|].
    rewrite fmap_cons. simpl. done.
  - clear -Hgood. intros c tr st ev st' (Hgq & Hhappy & Hfail & Hlen & Hsum)
      (ws & q & app & ws' & Hws & Hw & ->)%step_inv.
    pose proof (wstep_effect _ _ _ _ _ _ _ _ _ _ _ Hw) as [Hqq _].
    destruct (worker_step_happy _ _ _ _ _ _ _ _ Hw Hgq (Hhappy _ _ Hws))
      as (Hok' & Hgq' & Hnf & Heq).
    cbn [queue workers all_stories]. split_and!.
    + done.
    + intros w ws1 Hws1.
      destruct (decide (w = c.1)) as [->|Hne].
      * rewrite list_lookup_insert_eq in Hws1 by by eapply lookup_lt_Some.
        by simplify_eq.
      * rewrite list_lookup_insert_ne in Hws1 by done.
        pose proof (Hhappy _ _ Hws1) as Hold.
        destruct ws1; try done. destruct Hold as [-> Hqe].
        split; [done|]. rewrite Hqe in Hqq.
        by destruct (app_eq_nil _ _ (eq_sym Hqq)).
    + by rewrite failures_snoc, Hfail, Hnf.
    + by rewrite length_insert.
    + pose proof (sum_list_insert hold _ _ _ ws' Hws).
      rewrite length_app. lia.
  - simpl. split_and!; try done.
    + intros w ws [-> _]%lookup_replicate. done.
    + by rewrite length_replicate.
    + rewrite fmap_replicate. simpl. rewrite sum_list_replicate. lia.
Qed.

(** *** The queue drains and the result list grows *)

(** X10: along any run, from any state, the queue only loses pages from
    its front, the result list only gains stories at its end, and the
    number of workers stays the same. *)
Theorem queue_drains_list_grows sched tr0 st0 tr st :
  run sched (tr0, st0) = Some (tr, st) →
  queue st `suffix_of` queue st0
  ∧ all_stories st0 `prefix_of` all_stories st
  ∧ tr0 `prefix_of` tr
  ∧ length (workers st) = length (workers st0).
Proof.
  intros Hrun.
  apply (run_invariant net BeautifulSoup repr_comments
           (λ tr st,
              queue st `suffix_of` queue st0
              ∧ all_stories st0 `prefix_of` all_stories st
              ∧ tr0 `prefix_of` tr
              ∧ length (workers st) = length (workers st0))) in Hrun;
    [done| |done].
  clear. intros c tr st ev st' (Hq & Hs & Ht & Hl)
    (ws & q & app & ws' & Hws & Hw & ->)%step_inv.
  apply wstep_effect in Hw as [Hqq ->]. simpl. split_and!.
  - etrans; [|done]. rewrite Hqq. by apply suffix_app_r.
  - by apply prefix_app_r.
  - by apply prefix_app_r.
  - by rewrite length_insert.
Qed.

End PoolFacts.

Lemma published_batch_is_page_witness :
  scrape_page net_AB soup_of repr_none (BASE_URL_format 1)
  = Some [with_comments story_A; with_comments story_B].
Proof.
  destruct (published_batch_is_page net_AB soup_of repr_none sched_AB 1
              two_pages trace_AB state_AB
              [EvTake 0 (BASE_URL_format 1);
               EvSpawn 0 (BASE_URL_format 1) [story_A; story_B];
               EvTaskDone 0 0; EvTaskDone 0 1; EvJoined 0]
              0 [with_comments story_A; with_comments story_B]
              [EvTake 0 (BASE_URL_format 2);
               EvNoStories 0 (BASE_URL_format 2)])
    as (page & Hcur & _ & Hpage & _).
  - vm_compute. reflexivity.
  - reflexivity.
  - injection Hcur as <-. exact Hpage.
Defined.

Lemma result_list_records_witness :
  complete_story (with_comments story_A).
Proof.
  apply (result_list_records net_AB soup_of repr_none sched_AB 1 two_pages
           trace_AB state_AB).
  - vm_compute. reflexivity.
  - simpl. apply list_elem_of_here.
Defined.

Lemma single_worker_result_witness :
  all_stories state_AB = seq_scrape net_AB soup_of repr_none two_pages.
Proof.
  apply (single_worker_result net_AB soup_of repr_none two_pages sched_AB
           trace_AB).
  vm_compute. reflexivity.
Defined.

Lemma result_list_bound_witness :
  length (all_stories state_AB)
  ≤ sum_list (page_tasks net_AB soup_of <$> taken trace_AB)
  ∧ sum_list (page_tasks net_AB soup_of <$> taken trace_AB)
    ≤ sum_list (page_tasks net_AB soup_of <$> two_pages).
Proof.
  apply (result_list_bound net_AB soup_of repr_none sched_AB 1 two_pages
           trace_AB state_AB).
  vm_compute. reflexivity.
Defined.

Lemma pages_lost_bound_witness :
  length (taken trace_AB) ≤ publications trace_AB + 1.
Proof.
  apply (pages_lost_bound net_AB soup_of repr_none sched_AB 1 two_pages
           trace_AB state_AB).
  vm_compute. reflexivity.
Defined.

Lemma good_page_full page :
  good_page net_full soup_rows repr_none (BASE_URL_format page).
Proof.
  exists [with_comments story_A]. split; [|discriminate].
  unfold scrape_page, fetch, net_full.
  destruct (decide (BASE_URL_format page = item_url "1")) as [H|_].
  - apply (f_equal (take 30)) in H. vm_compute in H. discriminate H.
  - vm_compute. reflexivity.
Qed.

Lemma all_pages_scraped_witness :
  1 ≤ 1
  ∧ queue state_two_full = []
  ∧ taken trace_two_full = two_pages
  ∧ failures trace_two_full = 0
  ∧ Forall (λ ws, ws = Terminated Returned) (workers state_two_full)
  ∧ length (all_stories state_two_full)
    = sum_list (page_tasks net_full soup_rows <$> two_pages).
Proof.
  split; [lia|].
  apply (all_pages_scraped net_full soup_rows repr_none 1 two_pages
           sched_two_full trace_two_full state_two_full).
  - lia.
  - repeat constructor; apply good_page_full.
  - vm_compute. reflexivity.
Defined.

Lemma queue_drains_list_grows_witness :
  queue state_AB `suffix_of` two_pages
  ∧ [] `prefix_of` all_stories state_AB
  ∧ [] `prefix_of` trace_AB
  ∧ length (workers state_AB) = 1.
Proof.
  apply (queue_drains_list_grows net_AB soup_of repr_none sched_AB
           [] (pool_init 1 two_pages) trace_AB state_AB).
  vm_compute. reflexivity.
Defined.

(** ** The URLs *)

Lemma py_inj s1 s2 : py s1 = py s2 → s1 = s2.
Proof.
  unfold py. intros H.
  rewrite <- (String.string_of_list_ascii_of_string s1),
          <- (String.string_of_list_ascii_of_string s2).
  f_equal. revert H.
  generalize (String.list_ascii_of_string s1)
             (String.list_ascii_of_string s2).
  induction l as [|a l IH]; intros [|b k] H; simplify_eq/=; [done|].
  f_equal; [|by apply IH].
  rewrite <- (Ascii.ascii_N_embedding a), <- (Ascii.ascii_N_embedding b).
  congruence.
Qed.

(** X11: [BASE_URL.format] gives different URLs for different page
    numbers, so the hundred pages [main] enqueues are pairwise distinct;
    and no page URL is the URL of a comment page. *)
Theorem base_url_distinct :
  (∀ page page', BASE_URL_format page = BASE_URL_format page' →
                 page = page')
  ∧ NoDup main_pages
  ∧ (∀ repr_comments page v,
        BASE_URL_format page ≠ ITEM_URL_format repr_comments v).
Proof.
  assert (∀ page page', BASE_URL_format page = BASE_URL_format page' →
                        page = page') as Hinj.
  { unfold BASE_URL_format. intros page page' H.
    apply app_inv_head, py_inj in H.
    apply Unsigned.to_uint_inj.
    assert (Some (Nat.to_uint page) = Some (Nat.to_uint page')) as [=];
      [|done].
    by rewrite <- !NilEmpty.usu, H. }
  split_and!; [done| |].
  - unfold main_pages. apply NoDup_fmap_2; [|apply NoDup_seq].
    intros ???. by apply Hinj.
  - intros repr_comments page v H.
    unfold BASE_URL_format, ITEM_URL_format in H.
    apply (f_equal (take 30)) in H.
    rewrite !take_app_le in H by (vm_compute; lia).
    vm_compute in H. discriminate H.
Qed.

(** ** Ranges and slices *)

Lemma py_slice_nonneg {A} (l : list A) (i j : Z) :
  (0 ≤ i)%Z → (i ≤ j)%Z →
  py_slice l i j = take (Z.to_nat (j - i)) (drop (Z.to_nat i) l).
Proof.
  intros Hi Hj. unfold py_slice, slice_index.
  rewrite !(proj2 (Z.ltb_ge _ _)) by lia.
  destruct (decide (i ≤ Z.of_nat (length l))%Z).
  - rewrite (Z.min_l i) by lia.
    destruct (decide (j ≤ Z.of_nat (length l))%Z).
    + by rewrite (Z.min_l j) by lia.
    + rewrite (Z.min_r j) by lia.
      rewrite !take_ge; [done|rewrite length_drop; lia..].
  - rewrite !Z.min_r by lia. rewrite Z.sub_diag. simpl.
    rewrite (drop_ge l (Z.to_nat i)) by lia. by rewrite take_nil.
Qed.

Lemma py_range_pos (stop step : Z) :
  (0 < step)%Z → (0 ≤ stop)%Z →
  py_range 0 stop step
  = Some ((λ i : nat, (Z.of_nat i * step)%Z)
            <$> seq 0 (Z.to_nat ((stop + step - 1) / step))).
Proof.
  intros Hs Hstop. unfold py_range.
  rewrite (proj2 (Z.eqb_neq _ _)) by lia.
  rewrite (proj2 (Z.ltb_lt _ _)) by lia.
  rewrite Z.sub_0_r. f_equal.
Qed.

(** Cutting a list into [m] pieces of [k] elements loses nothing when
    [m * k] covers the list. *)
Lemma chunks_concat {A} (k m : nat) (l : list A) :
  length l ≤ m * k →
  concat ((λ i, take k (drop (i * k) l)) <$> seq 0 m) = l.
Proof.
  revert l. induction m as [|m IH]; intros l Hl.
  - simpl. destruct l; [done|simpl in Hl; lia].
  - rewrite <- cons_seq, fmap_cons. simpl.
    rewrite <- fmap_S_seq, <- list_fmap_compose.
    transitivity (take k l ++ drop k l); [|apply take_drop]. f_equal.
    etrans; [|apply (IH (drop k l)); rewrite length_drop; lia].
    f_equal. apply list_fmap_ext. intros _ i _. simpl.
    rewrite drop_drop. repeat f_equal; lia.
Qed.

(** ** The terminal demo *)

Lemma url_chunks_ok {A} (urls : list A) (num_workers : Z) :
  (1 ≤ num_workers ≤ Z.of_nat (length urls))%Z →
  let k := length urls / Z.to_nat num_workers in
  let m := (length urls + k - 1) / k in
  1 ≤ k ∧
  url_chunks urls num_workers
  = inr ((λ j, take k (drop (j * k) urls)) <$> seq 0 m).
Proof.
  intros Hn k m.
  assert (1 ≤ k) as Hk.
  { subst k. apply Nat.div_le_lower_bound; lia. }
  split; [done|]. unfold url_chunks.
  rewrite (proj2 (Z.eqb_neq _ _)) by lia.
  assert (Z.of_nat (length urls) / num_workers = Z.of_nat k)%Z as ->.
  { subst k. rewrite Nat2Z.inj_div, Z2Nat.id by lia. done. }
  rewrite py_range_pos by lia.
  assert (Z.to_nat ((Z.of_nat (length urls) + Z.of_nat k - 1) / Z.of_nat k)
          = m) as ->.
  { subst m. rewrite <- (Nat2Z.id ((length urls + k - 1) / k)).
    f_equal. rewrite Nat2Z.inj_div. f_equal. lia. }
  f_equal. rewrite <- list_fmap_compose. apply list_fmap_ext.
  intros _ j _. simpl. rewrite py_slice_nonneg by lia.
  f_equal; [lia|]. f_equal. lia.
Qed.

Lemma url_chunks_concat {A} (urls : list A) (num_workers : Z) :
  (1 ≤ num_workers ≤ Z.of_nat (length urls))%Z →
  ∃ chunks, url_chunks urls num_workers = inr chunks ∧ concat chunks = urls.
Proof.
  intros Hn. destruct (url_chunks_ok urls num_workers Hn) as [Hk ->].
  eexists. split; [done|]. apply chunks_concat.
  set (n := Z.to_nat num_workers) in *.
  set (k := length urls / n) in *.
  pose proof (Nat.div_mod_eq (length urls + k - 1) k).
  assert ((length urls + k - 1) `mod` k < k)
    by (apply Nat.mod_upper_bound; lia).
  nia.
Qed.

(** X12: for a number of workers between 1 and the number of URLs,
    [run_multi_threaded] cuts the URLs into chunks that, put together
    again, are the URLs: none is lost or doubled. Every chunk has between
    1 and [len(urls) // num_workers] URLs. There are at least as many
    chunks as workers, and exactly as many only when the number of workers
    divides the number of URLs. *)
Theorem url_chunks_partition {A} (urls : list A) (num_workers : Z) :
  (1 ≤ num_workers ≤ Z.of_nat (length urls))%Z →
  ∃ chunks,
    url_chunks urls num_workers = inr chunks
    ∧ concat chunks = urls
    ∧ Forall (λ c, 1 ≤ length c ≤ length urls / Z.to_nat num_workers) chunks
    ∧ Z.to_nat num_workers ≤ length chunks
    ∧ (length chunks = Z.to_nat num_workers
       ↔ length urls `mod` Z.to_nat num_workers = 0).
Proof.
  intros Hn. destruct (url_chunks_ok urls num_workers Hn) as [Hk ->].
  set (n := Z.to_nat num_workers).
  set (k := length urls / n) in *.
  set (m := (length urls + k - 1) / k).
  assert (1 ≤ n ≤ length urls) as Hnn by lia.
  assert (length urls = n * k + length urls `mod` n) as Hdiv.
  { subst k. apply Nat.div_mod_eq. }
  assert (length urls `mod` n < n) as Hmod by (apply Nat.mod_upper_bound; lia).
  assert (length urls + k - 1 = k * m + (length urls + k - 1) `mod` k)
    as Hdiv'.
  { subst m. apply Nat.div_mod_eq. }
  assert ((length urls + k - 1) `mod` k < k) as Hmod'
    by (apply Nat.mod_upper_bound; lia).
  eexists. split_and!; [done| | | |].
  - apply chunks_concat. nia.
  - apply Forall_fmap, Forall_forall. intros j Hj%elem_of_seq. simpl.
    rewrite length_take, length_drop. nia.
  - rewrite length_fmap, length_seq. nia.
  - rewrite length_fmap, length_seq. split; intros H; nia.
Qed.

Lemma url_chunks_partition_witness :
  (1 ≤ 4 ≤ Z.of_nat (length test_urls))%Z
  ∧ ∃ chunks,
      url_chunks test_urls 4 = inr chunks
      ∧ concat chunks = test_urls
      ∧ Forall (λ c, 1 ≤ length c ≤ length test_urls / Z.to_nat 4) chunks
      ∧ Z.to_nat 4 ≤ length chunks
      ∧ (length chunks = Z.to_nat 4 ↔ length test_urls `mod` Z.to_nat 4 = 0).
Proof.
  assert (1 ≤ 4 ≤ Z.of_nat (length test_urls))%Z as H.
  { vm_compute. split; discriminate. }
  split; [exact H|]. apply (url_chunks_partition test_urls 4 H).
Defined.

(** The demo itself cuts its ten pages for four workers into five chunks
    of two. *)
Example url_chunks_demo :
  url_chunks test_urls 4
  = inr ((λ p : list nat, BASE_URL_format <$> p)
           <$> ([[1; 2]; [3; 4]; [5; 6]; [7; 8]; [9; 10]]
                : list (list nat))).
Proof. vm_compute. reflexivity. Qed.

Section DemoFacts.
Variable net : pystr → result pystr.
Variable BeautifulSoup : pystr → node.

Local Abbreviation fetch_and_parse := (fetch_and_parse net BeautifulSoup).
Local Abbreviation scrape_pages := (scrape_pages net BeautifulSoup).
Local Abbreviation run_single_threaded :=
  (run_single_threaded net BeautifulSoup).
Local Abbreviation run_multi_threaded :=
  (run_multi_threaded net BeautifulSoup).

Lemma scrape_pages_concat chunks :
  sum_list (scrape_pages <$> chunks) = scrape_pages (concat chunks).
Proof.
  induction chunks as [|c chunks IH]; [done|].
  rewrite fmap_cons. simpl. rewrite IH. unfold scrape_pages.
  by rewrite fmap_app, sum_list_append.
Qed.

Lemma url_chunks_not_zero_division {A} (urls : list A) (num_workers : Z) :
  num_workers ≠ 0%Z →
  url_chunks urls num_workers ≠ inl DemoZeroDivisionError.
Proof.
  intros Hn. unfold url_chunks.
  rewrite (proj2 (Z.eqb_neq _ _)) by done. by destruct (py_range _ _ _).
Qed.

Lemma url_chunks_too_many {A} (urls : list A) (num_workers : Z) :
  (Z.of_nat (length urls) < num_workers)%Z →
  url_chunks urls num_workers = inl DemoValueError.
Proof.
  intros Hn. unfold url_chunks.
  rewrite (proj2 (Z.eqb_neq _ _)) by lia.
  rewrite Z.div_small by lia. done.
Qed.

(** X13: [run_multi_threaded] raises [ZeroDivisionError] for no worker and
    [ValueError] for a negative number of workers or more workers than
    URLs; otherwise its total is the total of [run_single_threaded] over
    the same URLs. *)
Theorem run_multi_threaded_total urls num_workers :
  (num_workers = 0%Z
   ∧ run_multi_threaded urls num_workers = inl DemoZeroDivisionError)
  ∨ ((num_workers < 0 ∨ Z.of_nat (length urls) < num_workers)%Z
     ∧ run_multi_threaded urls num_workers = inl DemoValueError)
  ∨ ((1 ≤ num_workers ≤ Z.of_nat (length urls))%Z
     ∧ run_multi_threaded urls num_workers
       = inr (run_single_threaded urls)).
Proof.
  unfold run_multi_threaded.
  destruct (decide (num_workers = 0%Z)) as [->|Hn0]; [by left|].
  right. destruct (decide (num_workers < 0)%Z) as [Hneg|Hpos].
  - left. split; [by left|].
    pose proof (url_chunks_not_zero_division urls num_workers Hn0).
    destruct (url_chunks urls num_workers) as [[]|chunks]; try done.
    by rewrite (proj2 (Z.leb_le _ _)) by lia.
  - destruct (decide (Z.of_nat (length urls) < num_workers)%Z) as [Hbig|Hok].
    + left. split; [by right|]. by rewrite url_chunks_too_many.
    + right. split; [lia|].
      destruct (url_chunks_concat urls num_workers)
        as (chunks & -> & Hc); [lia|].
      rewrite (proj2 (Z.leb_gt _ _)) by lia.
      by rewrite scrape_pages_concat, Hc.
Qed.

Lemma count_stories_filter stories story_count :
  count_stories stories story_count
  = story_count
    + length (filter (λ story, is_Some (select_one sel_titleline_a story))
                stories).
Proof.
  revert story_count. induction stories as [|story rest IH];
    intros story_count; simpl; [lia|].
  destruct (select_one sel_titleline_a story) eqn:Hs.
  - rewrite filter_cons_True by (by rewrite Hs). rewrite IH. simpl. lia.
  - rewrite filter_cons_False by (rewrite Hs; by intros [? ?]). apply IH.
Qed.

Lemma filter_story_item_le items :
  length (filter (λ item, story_item item = true) items)
  ≤ length (filter (λ story, is_Some (select_one sel_titleline_a story))
              items).
Proof.
  induction items as [|item rest IH]; [done|].
  destruct (select_one sel_titleline_a item) eqn:Hs.
  - rewrite (filter_cons_True (λ story, is_Some _)) by (by rewrite Hs).
    rewrite filter_cons. case_decide; simpl; lia.
  - rewrite (filter_cons_False (λ story, is_Some _))
      by (rewrite Hs; by intros [? ?]).
    rewrite filter_cons_False; [done|].
    unfold story_item. rewrite Hs.
    by rewrite bool_decide_eq_false_2 by (by intros [? ?]).
Qed.

(** X14: on a page that loads and that [parse_stories] can parse,
    [fetch_and_parse] counts at least as many stories as [parse_stories]
    returns records (it also counts items without [id]) and at most the
    number of [.athing] elements. *)
Theorem fetch_and_parse_bounds url html stories :
  net url = Ok html → parse_stories BeautifulSoup html = Ok stories →
  length stories ≤ fetch_and_parse url
  ∧ fetch_and_parse url ≤ length (select sel_athing (BeautifulSoup html)).
Proof.
  intros Hnet Hp. unfold fetch_and_parse. rewrite Hnet. simpl.
  rewrite count_stories_filter. simpl. split.
  - unfold parse_stories in Hp.
    apply parse_stories_loop_spec in Hp as (new & -> & Hnew). simpl.
    rewrite <- (Forall2_length _ _ _ Hnew). apply filter_story_item_le.
  - apply length_filter.
Qed.
End DemoFacts.

Lemma fetch_and_parse_bounds_witness :
  1 ≤ fetch_and_parse net_odd soup_of (BASE_URL_format 1)
  ∧ fetch_and_parse net_odd soup_of (BASE_URL_format 1) ≤ 3.
Proof.
  apply (fetch_and_parse_bounds net_odd soup_of (BASE_URL_format 1)
           page_odd_html [story_dict (py "7") (py "T") (py "/x")]).
  - reflexivity.
  - vm_compute. reflexivity.
Defined.

(** On that page the demo counts two stories where the scraper keeps
    one. *)
Example fetch_and_parse_odd :
  fetch_and_parse net_odd soup_of (BASE_URL_format 1) = 2.
Proof. vm_compute. reflexivity. Qed.

(** ** The test server *)

Lemma page_slice_pos {A} (l : list A) (page limit : Z) :
  (1 ≤ page)%Z → (0 ≤ limit)%Z →
  page_slice l page limit
  = take (Z.to_nat limit) (drop (Z.to_nat (page - 1) * Z.to_nat limit) l).
Proof.
  intros Hp Hl. unfold page_slice. rewrite py_slice_nonneg by nia.
  f_equal; [f_equal; lia|]. f_equal. nia.
Qed.

(** X15: with a limit of at least 1, the pages 1 to
    [(len + limit - 1) // limit] of [index] and [api_articles], put one
    after the other, are the whole list of articles, each article on one
    page; no page has more than [limit] articles, and a page after the
    last one is empty. *)
Theorem pages_cover_articles {A} (l : list A) (limit : Z) :
  (1 ≤ limit)%Z →
  let total_pages :=
    Z.to_nat ((Z.of_nat (length l) + limit - 1) / limit) in
  concat ((λ page, page_slice l (Z.of_nat page) limit)
            <$> seq 1 total_pages) = l
  ∧ ∀ page, (1 ≤ page)%Z →
      (Z.of_nat (length (page_slice l page limit)) ≤ limit)%Z
      ∧ ((Z.of_nat total_pages < page)%Z → page_slice l page limit = []).
Proof.
  intros Hl total_pages.
  set (k := Z.to_nat limit).
  assert (1 ≤ k) as Hk by lia.
  assert (length l ≤ total_pages * k) as Hcover.
  { subst total_pages k.
    pose proof (Z.div_mod (Z.of_nat (length l) + limit - 1) limit).
    pose proof (Z.mod_pos_bound (Z.of_nat (length l) + limit - 1) limit).
    assert (0 ≤ (Z.of_nat (length l) + limit - 1) / limit)%Z
      by (apply Z.div_pos; lia).
    nia. }
  split.
  - etrans; [|apply (chunks_concat k total_pages l Hcover)]. f_equal.
    rewrite <- fmap_S_seq, <- list_fmap_compose. apply list_fmap_ext.
    intros _ j _. simpl. rewrite page_slice_pos by lia.
    fold k. repeat f_equal. lia.
  - intros page Hp. rewrite page_slice_pos by lia. fold k. split.
    + rewrite length_take. lia.
    + intros Hlast. rewrite drop_ge; [by rewrite take_nil|]. nia.
Qed.

Lemma pages_cover_articles_witness :
  (1 ≤ 10)%Z
  ∧ concat ((λ page, page_slice (seq 1 25) (Z.of_nat page) 10)
              <$> seq 1 3) = seq 1 25.
Proof.
  split; [lia|].
  apply (pages_cover_articles (seq 1 25) 10). lia.
Defined.

(** X16: [index] and [api_articles] do not reject a page number below 1:
    page 0 is empty, and a negative page counts whole pages from the end
    of the list, as long as the list is long enough. *)
Theorem pages_below_one {A} (l : list A) (page limit : Z) :
  (1 ≤ limit)%Z → (page ≤ -1)%Z →
  ((1 - page) * limit ≤ Z.of_nat (length l))%Z →
  page_slice l 0 limit = []
  ∧ page_slice l page limit
    = take (Z.to_nat limit)
        (drop (length l - Z.to_nat ((1 - page) * limit)) l)
  ∧ length (page_slice l page limit) = Z.to_nat limit.
Proof.
  intros Hl Hp Hlen.
  assert (page_slice l page limit
          = take (Z.to_nat limit)
              (drop (length l - Z.to_nat ((1 - page) * limit)) l)) as Heq.
  { unfold page_slice, py_slice, slice_index.
    replace ((1 - page) * limit)%Z with (- ((page - 1) * limit))%Z in *
      by ring.
    assert ((page - 1) * limit + limit < 0)%Z by nia.
    assert ((page - 1) * limit < 0)%Z by nia.
    set (m := ((page - 1) * limit)%Z) in *.
    rewrite !(proj2 (Z.ltb_lt _ _)) by lia.
    rewrite !Z.max_r by lia. clearbody m. f_equal; [lia|]. f_equal; lia. }
  split_and!.
  - unfold page_slice, py_slice, slice_index.
    replace ((0 - 1) * limit + limit)%Z with 0%Z by lia.
    replace ((0 - 1) * limit)%Z with (- limit)%Z by lia.
    rewrite (proj2 (Z.ltb_lt (- limit) 0)) by lia.
    rewrite (proj2 (Z.ltb_ge 0 0)) by lia.
    replace (Z.to_nat _) with 0 by lia. done.
  - done.
  - rewrite Heq, length_take, length_drop. nia.
Qed.

Lemma pages_below_one_witness :
  page_slice (seq 1 100) (-1) 10 = seq 81 10.
Proof.
  destruct (pages_below_one (seq 1 100) (-1) 10) as (_ & -> & _).
  - lia.
  - lia.
  - vm_compute. discriminate.
  - vm_compute. reflexivity.
Defined.

(** X17: [api_articles] does not reject a negative limit: on page 1 it
    returns all the articles but the last [-limit]. *)
Theorem negative_limit {A} (l : list A) (limit : Z) :
  (limit < 0)%Z → (- limit ≤ Z.of_nat (length l))%Z →
  page_slice l 1 limit = take (length l - Z.to_nat (- limit)) l.
Proof.
  intros Hl Hlen. unfold page_slice, py_slice, slice_index.
  replace ((1 - 1) * limit)%Z with 0%Z by lia.
  rewrite (proj2 (Z.ltb_ge 0 0)) by lia.
  rewrite (proj2 (Z.ltb_lt _ _)) by lia.
  rewrite Z.min_l, Z.max_r by lia. simpl. rewrite drop_0. f_equal. lia.
Qed.

Lemma negative_limit_witness :
  page_slice (seq 1 100) 1 (-10) = seq 1 90.
Proof.
  rewrite (negative_limit (seq 1 100) (-10)).
  - vm_compute. reflexivity.
  - lia.
  - vm_compute. discriminate.
Defined.

Lemma sum_fmap_insert {A} (f : A → nat) (l : list A) i x y :
  l !! i = Some x →
  sum_list (f <$> <[i:=y]> l) + f x = sum_list (f <$> l) + f y.
Proof.
  revert i. induction l as [|z l IH]; intros [|i] Hi; simplify_eq/=.
  - lia.
  - specialize (IH i Hi). lia.
Qed.

Lemma count_requests_snoc p reqs req :
  count_requests p (reqs ++ [req])
  = count_requests p reqs + (if p req then 1 else 0).
Proof.
  unfold count_requests. rewrite filter_app, length_app. f_equal.
  rewrite filter_cons, filter_nil. destruct (p req); by case_decide.
Qed.

Lemma count_requests_le (p q : request → bool) reqs :
  (∀ req, p req = true → q req = true) →
  count_requests p reqs ≤ count_requests q reqs.
Proof.
  intros Hpq. unfold count_requests.
  induction reqs as [|req reqs IH]; [done|].
  rewrite !filter_cons. specialize (Hpq req).
  repeat case_decide; simpl; try lia.
  destruct (p req); [|done]. by rewrite Hpq in *.
Qed.

Lemma iter_viewed_id k a : art_id (Nat.iter k viewed a) = art_id a.
Proof. induction k as [|k IH]; [done|]. by rewrite Nat.iter_succ. Qed.

Lemma iter_viewed_views k a :
  art_views (Nat.iter k viewed a) = art_views a + k.
Proof.
  induction k as [|k IH]; [simpl; lia|]. rewrite Nat.iter_succ. simpl. lia.
Qed.

Section ServerFacts.
Variable random_author : nat → pystr.
Variable random_tags : nat → list pystr.
Variable random_sample : list Article → nat → list Article.

Local Abbreviation sample_article := (sample_article random_author random_tags).
Local Abbreviation server_init := (server_init random_author random_tags).
Local Abbreviation article := (article random_sample).
Local Abbreviation serve := (serve random_sample).
Local Abbreviation serve_all := (serve_all random_sample).

Local Abbreviation articles_after := (articles_after random_author random_tags).

Lemma serve_all_snoc reqs req s :
  serve_all (reqs ++ [req]) s = (serve req (serve_all reqs s)).1.
Proof. unfold serve_all. by rewrite foldl_app. Qed.

Lemma articles_after_lookup reqs i a :
  articles_after reqs !! i = Some a →
  i < 100 ∧ art_id a = Z.of_nat (S i)
  ∧ a = Nat.iter (count_requests (is_article_of (Z.of_nat (S i))) reqs)
          viewed (sample_article (S i)).
Proof.
  unfold articles_after. rewrite list_lookup_fmap.
  destruct (seq 1 100 !! i) as [j|] eqn:Hj; [|done].
  apply lookup_seq in Hj as [-> Hi]. intros [= <-].
  split_and!; [done| |done]. by rewrite iter_viewed_id.
Qed.

(** Looking an article up by its id. *)
Lemma find_article_found reqs article_id :
  (1 ≤ article_id ≤ 100)%Z →
  ∃ a, articles_after reqs !! (Z.to_nat article_id - 1) = Some a
       ∧ art_id a = article_id
       ∧ list_find (λ a, art_id a = article_id) (articles_after reqs)
         = Some (Z.to_nat article_id - 1, a).
Proof.
  intros Hid.
  assert (is_Some (articles_after reqs !! (Z.to_nat article_id - 1)))
    as [a Ha].
  { apply lookup_lt_is_Some. unfold articles_after.
    rewrite length_fmap, length_seq. lia. }
  exists a. split; [done|].
  assert (art_id a = article_id) as Hida.
  { apply articles_after_lookup in Ha as (_ & -> & _). lia. }
  split; [done|].
  apply list_find_Some. split_and!; [done..|].
  intros j b Hb Hj. apply articles_after_lookup in Hb as (_ & -> & _). lia.
Qed.

Lemma find_article_missing reqs article_id :
  ¬ (1 ≤ article_id ≤ 100)%Z →
  list_find (λ a, art_id a = article_id) (articles_after reqs) = None.
Proof.
  intros Hid. apply list_find_None, Forall_forall. intros a Ha.
  apply list_elem_of_lookup in Ha as [i Ha].
  apply articles_after_lookup in Ha as (? & -> & _). lia.
Qed.

Lemma articles_after_snoc_other reqs req :
  is_found req = false →
  articles_after (reqs ++ [req]) = articles_after reqs.
Proof.
  intros Hreq. unfold articles_after. apply list_fmap_ext.
  intros k i [-> Hk]%lookup_seq. rewrite count_requests_snoc.
  destruct req as [| article_id | | | |]; simpl in *;
    try by rewrite Nat.add_0_r.
  rewrite bool_decide_false; [by rewrite Nat.add_0_r|].
  intros ->. apply bool_decide_eq_false in Hreq. lia.
Qed.

Lemma articles_after_snoc_found reqs article_id a :
  articles_after reqs !! (Z.to_nat article_id - 1) = Some a →
  (1 ≤ article_id ≤ 100)%Z →
  articles_after (reqs ++ [GetArticle article_id])
  = <[Z.to_nat article_id - 1 := viewed a]> (articles_after reqs).
Proof.
  intros Ha Hid. apply list_eq. intros j.
  destruct (decide (j = Z.to_nat article_id - 1)) as [->|Hj].
  - rewrite list_lookup_insert_eq by (by eapply lookup_lt_Some).
    apply articles_after_lookup in Ha as (Hi & _ & ->).
    unfold articles_after. rewrite list_lookup_fmap, lookup_seq_lt by done.
    simpl. f_equal. rewrite count_requests_snoc. simpl.
    rewrite bool_decide_true by lia. by rewrite Nat.add_1_r.
  - rewrite list_lookup_insert_ne by done.
    unfold articles_after. rewrite !list_lookup_fmap.
    destruct (seq 1 100 !! j) as [i|] eqn:Hi; [|done].
    apply lookup_seq in Hi as [-> Hi]. simpl. do 2 f_equal.
    rewrite count_requests_snoc. simpl.
    rewrite bool_decide_false by lia. by rewrite Nat.add_0_r.
Qed.

Local Ltac server_simpl :=
  unfold serve, index, article, stats_page, api_stats, api_articles,
    add_stats_middleware, count_page_view, count_article_view;
  cbn [fst snd stats SAMPLE_ARTICLES total_requests page_views
       article_views].

(** The state of the server after any sequence of requests. *)
Lemma serve_all_state reqs :
  let s := serve_all reqs server_init in
  total_requests (stats s) = length reqs
  ∧ page_views (stats s) = count_requests is_index reqs
  ∧ article_views (stats s) = count_requests is_article reqs
  ∧ SAMPLE_ARTICLES s = articles_after reqs
  ∧ total_article_views (SAMPLE_ARTICLES s) = count_requests is_found reqs.
Proof.
  induction reqs as [|req reqs IH] using rev_ind.
  - split_and!; done.
  - cbv zeta in *. rewrite serve_all_snoc, length_app, !count_requests_snoc.
    destruct IH as (Ht & Hp & Ha & Hs & Hv).
    destruct (serve_all reqs server_init) as [[t p a] l].
    cbn [stats SAMPLE_ARTICLES total_requests page_views article_views] in *.
    subst t p a l.
    destruct req as [page | article_id | | | page limit |]; server_simpl;
      try (rewrite articles_after_snoc_other by done;
           split_and!; cbn [length is_index is_article is_found]; lia || done).
    destruct (decide (1 ≤ article_id ≤ 100)%Z) as [Hid|Hid].
    + destruct (find_article_found reqs article_id Hid)
        as (a & Hlook & _ & ->). server_simpl.
      erewrite articles_after_snoc_found by done.
      cbn [length is_index is_article is_found].
      rewrite bool_decide_true by done.
      split_and!; try lia; try done.
      pose proof (sum_fmap_insert art_views _ _ _ (viewed a) Hlook) as Hsum.
      unfold total_article_views in *. cbn [art_views viewed] in Hsum. lia.
    + rewrite find_article_missing by done. server_simpl.
      rewrite articles_after_snoc_other
        by (cbn [is_found]; by apply bool_decide_eq_false).
      cbn [length is_index is_article is_found].
      rewrite bool_decide_false by done.
      split_and!; lia || done.
Qed.

(** X18: the three counters of [request_stats] count the requests: every
    request, whatever its path, adds one to [total_requests] in the
    middleware, a request for the homepage one to [page_views], and a
    request for an article one to [article_views], also when the article
    does not exist. *)
Theorem request_counters reqs :
  let s := serve_all reqs server_init in
  total_requests (stats s) = length reqs
  ∧ page_views (stats s) = count_requests is_index reqs
  ∧ article_views (stats s) = count_requests is_article reqs.
Proof.
  destruct (serve_all_state reqs) as (Ht & Hp & Ha & _). by split_and!.
Qed.

(** X19: the hundred articles stay in their places with their fields as
    loaded, but for the views: those of article [i] are the number of
    requests for it.  The sum of the views, shown by [stats] and
    [api_stats], is the number of requests for an article that exists,
    and so is at most [article_views]. *)
Theorem article_view_counts reqs :
  let s := serve_all reqs server_init in
  SAMPLE_ARTICLES s = articles_after reqs
  ∧ (∀ i a, SAMPLE_ARTICLES s !! i = Some a →
       art_id a = Z.of_nat (S i)
       ∧ art_views a
         = count_requests (is_article_of (Z.of_nat (S i))) reqs)
  ∧ total_article_views (SAMPLE_ARTICLES s) = count_requests is_found reqs
  ∧ total_article_views (SAMPLE_ARTICLES s) ≤ article_views (stats s).
Proof.
  destruct (serve_all_state reqs) as (_ & _ & Ha & Hs & Hv).
  cbv zeta in *. split_and!; [done| |done|].
  - rewrite Hs. intros i a (_ & Hid & ->)%articles_after_lookup.
    split; [by rewrite iter_viewed_id|]. by rewrite iter_viewed_views.
  - rewrite Hv, Ha. apply count_requests_le. by intros [].
Qed.

(** X20: a request for an article answers "not found" exactly when the id
    is outside 1..100, the counters having been raised all the same;
    otherwise the page shows that article, with this view counted. *)
Theorem article_response reqs article_id :
  let s := serve_all reqs server_init in
  let '(s', resp) := serve (GetArticle article_id) s in
  total_requests (stats s') = total_requests (stats s) + 1
  ∧ article_views (stats s') = article_views (stats s) + 1
  ∧ (resp = ArticleNotFound ↔ ¬ (1 ≤ article_id ≤ 100)%Z)
  ∧ (resp = ArticleNotFound → SAMPLE_ARTICLES s' = SAMPLE_ARTICLES s)
  ∧ ((1 ≤ article_id ≤ 100)%Z →
     ∃ a related,
       resp = ArticlePage a related (stats s')
       ∧ art_id a = article_id
       ∧ art_views a
         = count_requests (is_article_of article_id) reqs + 1
       ∧ SAMPLE_ARTICLES s' !! (Z.to_nat article_id - 1) = Some a).
Proof.
  destruct (serve_all_state reqs) as (_ & _ & _ & Hs & _). cbv zeta in *.
  destruct (serve_all reqs server_init) as [[t p n] l].
  cbn [stats SAMPLE_ARTICLES total_requests page_views article_views] in *.
  subst l. server_simpl.
  destruct (decide (1 ≤ article_id ≤ 100)%Z) as [Hid|Hid].
  - destruct (find_article_found reqs article_id Hid)
      as (a & Hlook & Hida & ->). server_simpl.
    split_and!; [done..| | |].
    + split; [done|]. intros []. done.
    + done.
    + intros _. eexists _, _. split_and!; [done|done| |].
      * apply articles_after_lookup in Hlook as (_ & _ & ->).
        cbn [viewed art_views]. rewrite iter_viewed_views.
        replace (Z.of_nat (S (Z.to_nat article_id - 1))) with article_id
          by lia. done.
      * apply list_lookup_insert_eq. by eapply lookup_lt_Some.
  - rewrite find_article_missing by done. server_simpl.
    split_and!; [done..| |]; [done|]. intros ?. done.
Qed.

End ServerFacts.

(** ** The most viewed articles *)

Lemma insert_by_views_perm a l : insert_by_views a l ≡ₚ a :: l.
Proof.
  induction l as [|b l IH]; [done|]. simpl.
  destruct (art_views a <=? art_views b); [|done].
  by rewrite IH, Permutation_swap.
Qed.

Lemma sorted_by_views_perm l : sorted_by_views l ≡ₚ l.
Proof.
  unfold sorted_by_views.
  induction l as [|a l IH] using rev_ind; [done|].
  rewrite foldl_app. simpl. rewrite insert_by_views_perm, IH.
  by rewrite <- Permutation_cons_append.
Qed.

Lemma insert_by_views_sorted a l :
  StronglySorted (λ x y, art_views y ≤ art_views x) l →
  StronglySorted (λ x y, art_views y ≤ art_views x) (insert_by_views a l).
Proof.
  induction 1 as [|b l Hl IH Hb]; simpl.
  - repeat constructor.
  - destruct (art_views a <=? art_views b) eqn:Hab.
    + apply Nat.leb_le in Hab. constructor; [done|].
      rewrite insert_by_views_perm. by constructor.
    + apply Nat.leb_gt in Hab. constructor; [by constructor|].
      constructor; [lia|]. eapply Forall_impl; [done|].
      intros c Hc. simpl in Hc. lia.
Qed.

Lemma sorted_by_views_sorted l :
  StronglySorted (λ x y, art_views y ≤ art_views x) (sorted_by_views l).
Proof.
  unfold sorted_by_views.
  induction l as [|a l IH] using rev_ind; [constructor|].
  rewrite foldl_app. simpl. by apply insert_by_views_sorted.
Qed.

Lemma insert_by_views_last a l :
  Forall (λ b, art_views a ≤ art_views b) l →
  insert_by_views a l = l ++ [a].
Proof.
  induction 1 as [|b l Hb _ IH]; [done|]. simpl.
  rewrite (proj2 (Nat.leb_le _ _)) by done. by rewrite IH.
Qed.

Lemma sorted_take_drop l n a b :
  StronglySorted (λ x y, art_views y ≤ art_views x) l →
  a ∈ take n l → b ∈ drop n l → art_views b ≤ art_views a.
Proof.
  intros Hl. revert n. induction Hl as [|c l Hl IH Hc]; intros [|n];
    simpl; try by intros ?%elem_of_nil.
  intros [->|Ha]%elem_of_cons Hb.
  - eapply Forall_forall in Hc; [done|].
    eapply (subseteq_drop n), Hb.
  - by eapply IH.
Qed.

(** X21: the statistics page changes nothing.  Its five most viewed
    articles are articles of the list, five of them when there are that
    many, and no article it leaves out has more views than one it
    shows.  The sort is stable: a list already in descending order of
    views, as the list before any view is, keeps its order. *)
Theorem most_viewed_top (s : server) :
  let most_viewed := take 5 (sorted_by_views (SAMPLE_ARTICLES s)) in
  stats_page s
  = (s, StatsPage (stats s) (total_article_views (SAMPLE_ARTICLES s))
          most_viewed (length (SAMPLE_ARTICLES s)))
  ∧ length most_viewed = Nat.min 5 (length (SAMPLE_ARTICLES s))
  ∧ most_viewed ⊆ SAMPLE_ARTICLES s
  ∧ (∀ a b, a ∈ most_viewed → b ∈ SAMPLE_ARTICLES s → b ∉ most_viewed →
       art_views b ≤ art_views a)
  ∧ (StronglySorted (λ x y, art_views y ≤ art_views x) (SAMPLE_ARTICLES s) →
     most_viewed = take 5 (SAMPLE_ARTICLES s)).
Proof.
  intros most_viewed. subst most_viewed. split_and!.
  - done.
  - by rewrite length_take, sorted_by_views_perm.
  - intros a Ha%(subseteq_take 5). by rewrite sorted_by_views_perm in Ha.
  - intros a b Ha Hb Hnot.
    eapply (sorted_take_drop _ 5); [apply sorted_by_views_sorted|done|].
    rewrite <- sorted_by_views_perm, <- (take_drop 5) in Hb.
    apply elem_of_app in Hb as [Hb|Hb]; done.
  - intros Hsorted. f_equal. unfold sorted_by_views.
    induction (SAMPLE_ARTICLES s) as [|a l IH] using rev_ind; [done|].
    rewrite foldl_app. simpl.
    pose proof (StronglySorted_app_1_l _ _ _ Hsorted) as Hl.
    rewrite IH by done. apply insert_by_views_last.
    apply Forall_forall. intros b Hb.
    apply (sorted_take_drop (l ++ [a]) (length l) b a Hsorted).
    + rewrite take_app_length. done.
    + rewrite drop_app_length. set_solver.
Qed.
